(** * naxxivo storefront: the product card and the home listing

    A shallow embedding of [src/components/ProductCard.tsx] and
    [src/components/Home.tsx].  The components are React function
    components; what is embedded here is their logic: the values a render
    derives from its props and hooks, the handlers, and the choice of what
    is rendered.  JSX markup is abstracted to small inductive types that
    keep what the properties talk about (which branch, how many
    placeholders, which label).

    JavaScript numbers are IEEE 754 binary64 values.  They are modelled by
    their exact rational value, every arithmetic operation rounding the
    exact result to the nearest binary64 value, ties to even, as ECMAScript
    specifies them. *)

From Stdlib Require Import ZArith QArith Qround Qabs Qpower Qreduction.
From Stdlib Require Import Bool List Lia Floats NArith.
From Stdlib Require Strings.String Strings.Ascii Qcanon.
Import Strings.String.StringSyntax.
Delimit Scope string_scope with string.
Import ListNotations.

Set Implicit Arguments.

(* ================================================================= *)
(** ** JavaScript numbers *)

Module JS.

Local Open Scope Q_scope.

(** A Number: NaN, the two infinities, or a finite value.  The two zeros
    of binary64 are identified: the components never divide by a computed
    zero, and comparison, truthiness and printing do not tell [+0] from
    [-0]. *)
Inductive number : Type :=
| NaN
| PInf
| NInf
| Fin (q : Q).

Definition two : Q := 2.

(** [ilog2 q] is the binary exponent of a positive rational:
    [2^(ilog2 q) <= q < 2^(ilog2 q + 1)]. *)
Definition ilog2 (q : Q) : Z :=
  let k := (Z.log2 (Qnum q) - Z.log2 (Zpos (Qden q)))%Z in
  if Qle_bool (two ^ k) q then k else (k - 1)%Z.

(** Nearest integer, ties to the even one. *)
Definition rnd (q : Q) : Z :=
  let f := Qfloor q in
  match Qcompare (q - inject_Z f) (1 # 2) with
  | Lt => f
  | Gt => (f + 1)%Z
  | Eq => if Z.even f then f else (f + 1)%Z
  end.

(** binary64: 53 bits of precision, least exponent of the last place
    -1074, overflow from 2^1024. *)
Definition prec : Z := 53.
Definition emin : Z := (-1074)%Z.
Definition emax : Z := 1024.

(** The exponent of the unit in the last place for a positive [q]. *)
Definition ulp_exp (q : Q) : Z := Z.max (ilog2 q - (prec - 1)) emin.

(** Rounding of a positive rational: [None] is overflow. *)
Definition round_pos (q : Q) : option Q :=
  let e := ulp_exp q in
  let r := inject_Z (rnd (q / two ^ e)) * two ^ e in
  if Qle_bool (two ^ emax) r then None else Some (Qred r).

(** The Number for a real value (ECMAScript's F(x)): round to nearest,
    ties to even, overflow to an infinity. *)
Definition round (q : Q) : number :=
  match Qcompare q 0 with
  | Eq => Fin 0
  | Gt => match round_pos q with Some r => Fin r | None => PInf end
  | Lt => match round_pos (- q) with Some r => Fin (Qred (- r)) | None => NInf end
  end.

(** A finite value is a binary64 value when rounding leaves it as it is. *)
Definition is_double (x : number) : bool :=
  match x with
  | Fin q => match round q with Fin r => Qeq_bool r q | _ => false end
  | _ => true
  end.

Definition of_Z (z : Z) : number := Fin (inject_Z z).

Definition is_nan (x : number) : bool :=
  match x with NaN => true | _ => false end.

Definition is_zero (x : number) : bool :=
  match x with Fin q => Qeq_bool q 0 | _ => false end.

(** ToBoolean on a Number: NaN and zero are falsy. *)
Definition truthy (x : number) : bool := negb (is_nan x || is_zero x).

(** [a || b] on Numbers. *)
Definition or_else (a b : number) : number := if truthy a then a else b.

Definition add (x y : number) : number :=
  match x, y with
  | NaN, _ | _, NaN => NaN
  | PInf, NInf | NInf, PInf => NaN
  | PInf, _ | _, PInf => PInf
  | NInf, _ | _, NInf => NInf
  | Fin a, Fin b => round (a + b)
  end.

Definition neg (x : number) : number :=
  match x with
  | NaN => NaN | PInf => NInf | NInf => PInf
  | Fin a => Fin (Qred (- a))
  end.

Definition sub (x y : number) : number := add x (neg y).

(** The sign of a Number that is not NaN: -1, 0 or 1. *)
Definition sign (x : number) : Z :=
  match x with
  | NaN => 0%Z | PInf => 1%Z | NInf => (-1)%Z
  | Fin a => match Qcompare a 0 with Eq => 0%Z | Gt => 1%Z | Lt => (-1)%Z end
  end.

Definition inf_of_sign (s : Z) : number :=
  match s with Z0 => NaN | Zpos _ => PInf | Zneg _ => NInf end.

Definition mul (x y : number) : number :=
  match x, y with
  | NaN, _ | _, NaN => NaN
  | Fin a, Fin b => round (a * b)
  | _, _ => inf_of_sign (sign x * sign y)
  end.

(** Division.  A finite non-zero value over zero is an infinity with the
    sign of the dividend (the zero is taken as [+0]). *)
Definition div (x y : number) : number :=
  match x, y with
  | NaN, _ | _, NaN => NaN
  | Fin a, Fin b =>
      if Qeq_bool b 0 then inf_of_sign (sign x) else round (a / b)
  | Fin _, _ => Fin 0
  | _, Fin _ => inf_of_sign (sign x * (if Z.eqb (sign y) 0 then 1 else sign y))
  | _, _ => NaN
  end.

(** Truncation towards zero. *)
Definition Qtrunc (q : Q) : Z := Z.quot (Qnum q) (Zpos (Qden q)).

(** [x % y]: the remainder has the sign of the dividend and is exact. *)
Definition rem (x y : number) : number :=
  match x, y with
  | NaN, _ | _, NaN => NaN
  | PInf, _ | NInf, _ => NaN
  | Fin a, Fin b =>
      if Qeq_bool b 0 then NaN
      else Fin (Qred (a - b * inject_Z (Qtrunc (a / b))))
  | Fin a, _ => Fin a
  end.

(** [x > y] and [x < y]: false as soon as an operand is NaN. *)
Definition ltb (x y : number) : bool :=
  match x, y with
  | NaN, _ | _, NaN => false
  | _, NInf => false
  | NInf, _ => true
  | PInf, _ => false
  | _, PInf => true
  | Fin a, Fin b => match Qcompare a b with Lt => true | _ => false end
  end.

Definition gtb (x y : number) : bool := ltb y x.

(** [Math.floor] and [Math.round] (ties towards +Infinity); both are
    exact on binary64 values. *)
Definition Math_floor (x : number) : number :=
  match x with
  | Fin a => Fin (inject_Z (Qfloor a))
  | _ => x
  end.

Definition Math_round (x : number) : number :=
  match x with
  | Fin a => Fin (inject_Z (Qfloor (a + (1 # 2))))
  | _ => x
  end.

(** [dyadic q m k]: [q] is [m * 2^k] with [m] on 53 bits and [k] not below
    the least exponent; the finite binary64 values are the dyadic values
    below [2^emax] in magnitude. *)
Definition dyadic (q : Q) (m k : Z) : Prop :=
  q == inject_Z m * two ^ k /\ (Z.abs m < 2 ^ prec)%Z /\ (emin <= k)%Z.

(** Two Numbers with the same value ([Fin] may hold a fraction that is not
    in lowest terms). *)
Definition num_eq (x y : number) : Prop :=
  match x, y with
  | NaN, NaN | PInf, PInf | NInf, NInf => True
  | Fin a, Fin b => a == b
  | _, _ => False
  end.

(** *** Reading a Number back as a hardware binary64 value

    Used only to compare the model with the kernel's floating-point
    unit on concrete inputs. *)
Fixpoint pos_ctz (p : positive) : Z :=
  match p with
  | xO p' => (1 + pos_ctz p')%Z
  | _ => 0%Z
  end.

Definition to_float (x : number) : float :=
  match x with
  | NaN => nan
  | PInf => infinity
  | NInf => neg_infinity
  | Fin q =>
      match Qnum q with
      | Z0 => zero
      | Zpos n =>
          let k := pos_ctz n in
          Z.ldexp (of_uint63 (Uint63.of_Z (Zpos n / 2 ^ k)))
                  (k - Z.log2 (Zpos (Qden q)))
      | Zneg n =>
          let k := pos_ctz n in
          PrimFloat.opp
            (Z.ldexp (of_uint63 (Uint63.of_Z (Zpos n / 2 ^ k)))
                     (k - Z.log2 (Zpos (Qden q))))
      end
  end.

(** Two hardware values are the same Number: both NaN, or equal. *)
Definition same_float (a b : float) : bool :=
  (PrimFloat.is_nan a && PrimFloat.is_nan b) || PrimFloat.eqb a b.

End JS.

(* ================================================================= *)
(** ** JavaScript strings *)

Module JSString.

(** A String is a sequence of UTF-16 code units. *)
Definition js_string : Type := list N.

Definition code_unit_ok (c : N) : bool := N.ltb c 65536.

Definition wf_string (s : js_string) : bool := forallb code_unit_ok s.

(** A literal, written with Rocq's 8-bit strings. *)
Fixpoint lit (s : String.string) : js_string :=
  match s with
  | String.EmptyString => []
  | String.String c s' => Ascii.N_of_ascii c :: lit s'
  end.

(** [a === b] on two Strings: the same code units in the same order. *)
Fixpoint string_eqb (a b : js_string) : bool :=
  match a, b with
  | [], [] => true
  | x :: a', y :: b' => N.eqb x y && string_eqb a' b'
  | _, _ => false
  end.

(** [x === b] where [x] is a String or [undefined] (the result of an
    optional chain) and [b] is a String. *)
Definition strict_eq_opt (x : option js_string) (b : js_string) : bool :=
  match x with
  | Some a => string_eqb a b
  | None => false
  end.

(** [s.charCodeAt(i)]: the code unit at [i], NaN out of range. *)
Definition charCodeAt (s : js_string) (i : nat) : JS.number :=
  match nth_error s i with
  | Some c => JS.of_Z (Z.of_N c)
  | None => JS.NaN
  end.

End JSString.

Import JSString.

(* ================================================================= *)
(** ** Number to String: [toFixed(2)] *)

Module JSFormat.

Import JS.
Local Open Scope Q_scope.

(** The code unit of a decimal digit. *)
Definition digit (d : N) : N := (48 + d)%N.

(** The decimal digits of a natural number, most significant first;
    [fuel] bounds the number of digits after the first. *)
Fixpoint digits_fuel (fuel : nat) (n : N) : js_string :=
  match fuel with
  | O => [digit (n mod 10)]
  | S fuel' =>
      if N.ltb n 10 then [digit n]
      else digits_fuel fuel' (n / 10) ++ [digit (n mod 10)]
  end.

Definition decimal (n : N) : js_string :=
  digits_fuel (N.to_nat (N.log2 n)) n.

(** The number a String of decimal digits denotes. *)
Definition digits_value (s : js_string) : N :=
  fold_left (fun acc c => (10 * acc + (c - 48))%N) s 0%N.

(** Zeros on the left, up to the length [k]. *)
Definition pad_zeros (k : nat) (m : js_string) : js_string :=
  repeat (digit 0) (k - length m) ++ m.

(** The price in hundredths, the nearest integer to [100 y], the larger
    one of two. *)
Definition hundredths (y : Q) : N :=
  Z.to_N (Qfloor (y * inject_Z 100 + (1 # 2))).

(** The digits of [toFixed(2)] for [0 <= y < 10^21]: the digits of
    [hundredths y], padded to three, with a point before the last two. *)
Definition fixed2 (y : Q) : js_string :=
  let m := pad_zeros 3 (decimal (hundredths y)) in
  firstn (length m - 2) m ++ [46%N] ++ skipn (length m - 2) m.

(** Number::toString for a finite value of at least 10^21: the shortest
    digits [s], [k] of them, with [round (s * 10^(n - k)) = x], the
    closest to [x] when there are two (the even one at equal distance). *)
Definition rounds_to (v x : Q) : bool :=
  match round v with
  | Fin r => Qeq_bool r x
  | _ => false
  end.

Definition shortest_at (x : Q) (d k : Z) : option Z :=
  let p := inject_Z (10 ^ (d - k)) in
  let s0 := Qfloor (x / p) in
  let ok s := Z.leb (10 ^ (k - 1)) s && Z.ltb s (10 ^ k)
              && rounds_to (inject_Z s * p) x in
  match ok s0, ok (s0 + 1)%Z with
  | true, true =>
      match Qcompare (x - inject_Z s0 * p) (inject_Z (s0 + 1) * p - x) with
      | Lt => Some s0
      | Gt => Some (s0 + 1)%Z
      | Eq => Some (if Z.even s0 then s0 else (s0 + 1)%Z)
      end
  | true, false => Some s0
  | false, true => Some (s0 + 1)%Z
  | false, false => None
  end.

(** The first [k] of the list for which there are such digits, with the
    digits; 17 digits always do for a binary64 value. *)
Fixpoint shortest (x : Q) (d : Z) (ks : list Z) : Z * Z :=
  match ks with
  | [] => (Qfloor (x / inject_Z (10 ^ (d - 17))), 17%Z)
  | k :: ks' =>
      match shortest_at x d k with
      | Some s => (s, k)
      | None => shortest x d ks'
      end
  end.

Definition exponential (s : Z) (n : Z) : js_string :=
  match decimal (Z.to_N s) with
  | [] => []
  | c :: rest =>
      c :: match rest with [] => [] | _ => 46%N :: rest end
      ++ lit "e+"%string ++ decimal (Z.to_N (n - 1))
  end.

Definition toString_large (x : Q) : js_string :=
  let d := Z.of_nat (length (decimal (Z.to_N (Qfloor x)))) in
  if rounds_to (inject_Z (10 ^ d)) x then exponential 1 (d + 1)
  else
    let (s, k) := shortest x d (map Z.of_nat (seq 1 17)) in
    exponential s d.

(** [x.toFixed(2)] *)
Definition toFixed2 (x : number) : js_string :=
  match x with
  | NaN => lit "NaN"%string
  | PInf => lit "Infinity"%string
  | NInf => lit "-Infinity"%string
  | Fin q =>
      (match Qcompare q 0 with Lt => lit "-"%string | _ => [] end)
      ++ (if Qle_bool (inject_Z (10 ^ 21)) (Qabs q)
          then toString_large (Qabs q)
          else fixed2 (Qabs q))
  end.

End JSFormat.

(* ================================================================= *)
(** ** Records of [../types] and results of the hooks *)

(** Modelled from the spec: the types [ProductWithCategory] and [Category]
    of [src/types], which is not among the sources.  The fields are the
    ones the two components read; [original_price], [image_url] and the
    joined [categories] row may be null. *)
Record CategoryRef : Type := { cat_name : js_string }.

Record ProductWithCategory : Type := {
  id : js_string;
  name : js_string;
  price : JS.number;
  original_price : option JS.number;
  image_url : option js_string;
  categories : option CategoryRef
}.

Record Category : Type := {
  category_id : js_string;
  category_name : js_string
}.

(** A row of the wish list, as [useWishlist] returns it. *)
Record WishlistItem : Type := { product_id : js_string }.

(** What [useQuery] hands to a render.  The library never reports
    [isLoading] together with an [error]; the components do not rely on
    it, they test [isLoading] first. *)
Record QueryResult (A : Type) : Type := {
  data : option A;
  isLoading : bool;
  error : option js_string      (* the message of the Error, if any *)
}.

(** A well-formed product: the id is a String, the prices are binary64
    values. *)
Definition wf_product (p : ProductWithCategory) : bool :=
  wf_string (id p) && JS.is_double (price p) &&
  match original_price p with
  | Some o => JS.is_double o
  | None => true
  end.

(* ================================================================= *)
(** ** ProductCard.tsx *)

Module ProductCard.

Import JS.

(** *** Simulated rating (lines 37-42) *)

Definition seed (p : ProductWithCategory) : number :=
  add (or_else (charCodeAt (id p) 0) (of_Z 1)) (or_else (price p) (of_Z 1)).

Definition rating (p : ProductWithCategory) : number :=
  add (of_Z 4) (div (rem (seed p) (of_Z 10)) (of_Z 10)).

Definition reviewCount (p : ProductWithCategory) : number :=
  add (Math_floor (rem (mul (seed p) (of_Z 3)) (of_Z 100))) (of_Z 5).

(** *** Discount (lines 44-48) *)

(** The values [hasDiscount] can take: [a && b] is [a] when [a] is falsy,
    so it is null, a falsy number, or the boolean of the comparison. *)
Inductive value : Type :=
| VNull
| VBool (b : bool)
| VNumber (n : number).

Definition to_boolean (v : value) : bool :=
  match v with
  | VNull => false
  | VBool b => b
  | VNumber n => truthy n
  end.

Definition hasDiscount (p : ProductWithCategory) : value :=
  match original_price p with
  | None => VNull
  | Some o => if truthy o then VBool (gtb o (price p)) else VNumber o
  end.

(** [product.original_price!] inside arithmetic: null converts to 0. *)
Definition non_null (o : option number) : number :=
  match o with
  | Some n => n
  | None => of_Z 0
  end.

Definition discountPercentage (p : ProductWithCategory) : number :=
  if to_boolean (hasDiscount p)
  then Math_round
         (mul (div (sub (non_null (original_price p)) (price p))
                   (non_null (original_price p)))
              (of_Z 100))
  else of_Z 0.



(** The rating when the seed is an integer ending in the digit [d]. *)
Definition rating_of_digit (d : Z) : number :=
  add (of_Z 4) (div (of_Z d) (of_Z 10)).

(** What [{v && <element/>}] puts in the tree: the element when [v] is
    truthy, nothing for null and false, and the number itself for a falsy
    number. *)
Inductive node (A : Type) : Type :=
| Nothing
| Text (n : number)
| Element (a : A).
Arguments Nothing {A}.
Arguments Text {A} n.
Arguments Element {A} a.

Definition jsx_and (A : Type) (v : value) (a : A) : node A :=
  match v with
  | VNull => Nothing
  | VBool b => if b then Element a else Nothing
  | VNumber n => if truthy n then Element a else Text n
  end.

(** The badge [{discountPercentage}% OFF] (lines 115-119) and the struck
    through original price (lines 133-135). *)
Definition discount_badge (p : ProductWithCategory) : node number :=
  jsx_and (hasDiscount p) (discountPercentage p).

Definition struck_price (p : ProductWithCategory) : node (option number) :=
  jsx_and (hasDiscount p) (original_price p).

(** *** Handlers: what a call does, in order *)

Inductive effect : Type :=
| StopPropagation
| RemoveMutate (product : js_string)      (* removeMutation.mutate(id) *)
| AddMutate (product : js_string)         (* addMutation.mutate(id) *)
| AddToCartMutate (product : js_string)   (* addToCartMutation.mutate(id, ..) *)
| NavigateToCheckout (product : js_string)
| NavigateToDetail (product : js_string).

Definition is_mutation (e : effect) : bool :=
  match e with
  | RemoveMutate _ | AddMutate _ | AddToCartMutate _ => true
  | _ => false
  end.

(** [wishlist?.some(item => item.product_id === product.id) ?? false] *)
Definition isWishlisted (wishlist : option (list WishlistItem))
    (p : ProductWithCategory) : bool :=
  match wishlist with
  | Some items => existsb (fun item => string_eqb (product_id item) (id p)) items
  | None => false
  end.

Section Handlers.

(** The session of [useAuth]: an object or null. *)
Variable Session : Type.

Definition handleToggleWishlist (session : option Session)
    (wishlist : option (list WishlistItem)) (p : ProductWithCategory)
    : list effect :=
  StopPropagation ::
  match session with
  | None => []
  | Some _ =>
      if isWishlisted wishlist p
      then [RemoveMutate (id p)]
      else [AddMutate (id p)]
  end.

End Handlers.

Definition handleBuyNow (p : ProductWithCategory) : list effect :=
  [StopPropagation; NavigateToCheckout (id p)].

(** *** The add-to-cart button (lines 60-68, 75-92, 139-150)

    The state one card's button depends on: the clock (milliseconds), the
    [isPending] flag of the mutation, the [justAdded] state of the card,
    [isItemInCart(product.id)], and the due times of the callbacks the card
    has handed to [setTimeout] and that have not run yet. *)
Record card : Type := {
  now : N;
  isPending : bool;
  justAdded : bool;
  alreadyInCart : bool;
  timers : list N
}.

Definition initial_card : card :=
  {| now := 0; isPending := false; justAdded := false;
     alreadyInCart := false; timers := [] |}.

Inductive label : Type :=
| Spinner
| Added
| InCart
| AddToCart.

Definition renderButtonContent (s : card) : label :=
  if isPending s then Spinner
  else if justAdded s then Added
  else if alreadyInCart s then InCart
  else AddToCart.

Definition disabled (s : card) : bool := isPending s || alreadyInCart s.

(** What happens to a card. *)
Inductive event : Type :=
| Click                       (* a click on the add-to-cart button *)
| MutationSuccess             (* the pending mutation succeeds *)
| MutationError               (* the pending mutation fails *)
| CartChanged (member : bool) (* the cart hook reports a new membership *)
| Elapse (dt : N).            (* [dt] milliseconds pass *)

(** The success callback of line 63: the flag is set and one more
    callback is scheduled, 2000 ms from now. *)
Definition onSuccess (s : card) : card :=
  {| now := now s; isPending := false; justAdded := true;
     alreadyInCart := alreadyInCart s;
     timers := timers s ++ [(now s + 2000)%N] |}.

(** Time passes to [t]: every callback due by then runs ([setJustAdded(false)])
    and leaves the list. *)
Definition advance (t : N) (s : card) : card :=
  {| now := t; isPending := isPending s;
     justAdded := if existsb (fun due => N.leb due t) (timers s)
                  then false else justAdded s;
     alreadyInCart := alreadyInCart s;
     timers := filter (fun due => negb (N.leb due t)) (timers s) |}.

Definition step (s : card) (e : event) : card :=
  match e with
  | Click =>
      if disabled s then s
      else {| now := now s; isPending := true; justAdded := justAdded s;
              alreadyInCart := alreadyInCart s; timers := timers s |}
  | MutationSuccess => if isPending s then onSuccess s else s
  | MutationError =>
      {| now := now s; isPending := false; justAdded := justAdded s;
         alreadyInCart := alreadyInCart s; timers := timers s |}
  | CartChanged b =>
      {| now := now s; isPending := isPending s; justAdded := justAdded s;
         alreadyInCart := b; timers := timers s |}
  | Elapse dt => advance (now s + dt)%N s
  end.

Definition run (s : card) (es : list event) : card := fold_left step es s.

(** Traces without a success, and the time that passes in a trace. *)
Definition is_success (e : event) : bool :=
  match e with MutationSuccess => true | _ => false end.

Definition no_success (es : list event) : bool :=
  forallb (fun e => negb (is_success e)) es.

Definition elapsed (es : list event) : N :=
  fold_right (fun e acc => match e with Elapse dt => dt + acc | _ => acc end)%N
             0%N es.

(** After a success at [t0] with no callback pending before it: the flag
    is set and the single callback is pending exactly until [t0 + 2000]. *)
Definition window_inv (t0 : N) (s : card) : Prop :=
  justAdded s = N.ltb (now s) (t0 + 2000) /\
  timers s = if N.ltb (now s) (t0 + 2000) then [(t0 + 2000)%N] else [].

(** The effects of a click on the button: none while it is disabled. *)
Definition handleAddToCart (s : card) (p : ProductWithCategory) : list effect :=
  if disabled s then [] else [StopPropagation; AddToCartMutate (id p)].

(** *** Image and category label (lines 28, 101-106, 123) *)

(** A String is truthy when it is not empty. *)
Definition string_truthy (s : js_string) : bool :=
  match s with
  | [] => false
  | _ :: _ => true
  end.

(** [a || b] where [a] is a String or null and [b] a String. *)
Definition string_or_else (a : option js_string) (b : js_string) : js_string :=
  match a with
  | Some s => if string_truthy s then s else b
  | None => b
  end.

Definition fallbackImage (p : ProductWithCategory) : js_string :=
  lit "https://picsum.photos/seed/"%string ++ id p ++ lit "/400/400"%string.

Definition image_src (p : ProductWithCategory) : js_string :=
  string_or_else (image_url p) (fallbackImage p).

(** [onError]: whatever the source was, it becomes the fallback image. *)
Definition onImageError (p : ProductWithCategory) (src : js_string)
    : js_string :=
  fallbackImage p.

Definition categoryLabel (p : ProductWithCategory) : js_string :=
  string_or_else (option_map cat_name (categories p))
                 (lit "Uncategorized"%string).

(** *** Prices as text (lines 132-134) *)

(** [${product.price.toFixed(2)}] *)
Definition price_text (p : ProductWithCategory) : js_string :=
  lit "$"%string ++ JSFormat.toFixed2 (price p).

(** [${product.original_price?.toFixed(2)}], under [hasDiscount]; an
    undefined value of the optional call renders as nothing. *)
Definition struck_price_text (p : ProductWithCategory) : node js_string :=
  jsx_and (hasDiscount p)
          (lit "$"%string ++
           match original_price p with
           | Some o => JSFormat.toFixed2 o
           | None => []
           end).

(** *** The seed on integers

    The first operand of the seed as an integer: the first code unit of
    the id, 1 when there is none or when it is 0. *)
Definition first_code_Z (s : js_string) : Z :=
  match s with
  | [] => 1
  | c :: _ => if N.eqb c 0 then 1 else Z.of_N c
  end.

(** What holds of the callbacks of a card at every moment: each is due
    later than now and at most [2000] ms after [t]; the flag is set only
    while one is pending. *)
Definition timers_inv (t : N) (s : card) : Prop :=
  Forall (fun due => (now s < due /\ due <= t + 2000)%N) (timers s) /\
  (justAdded s = true -> timers s <> []).

End ProductCard.

(* ================================================================= *)
(** ** Home.tsx *)

Module Home.

Definition All : js_string := lit "All"%string.

(** [filteredProducts] (lines 203-207). *)
Definition filteredProducts (products : option (list ProductWithCategory))
    (activeCategory : js_string) : list ProductWithCategory :=
  match products with
  | None => []
  | Some ps =>
      if string_eqb activeCategory All then ps
      else filter (fun product =>
                     strict_eq_opt (option_map cat_name (categories product))
                                   activeCategory) ps
  end.

(** One placeholder card of the skeleton, with its key. *)
Inductive placeholder : Type := Placeholder (key : nat).

(** [Array.from({ length: n }).map((_, i) => ...)] *)
Definition placeholders (n : nat) : list placeholder :=
  map Placeholder (seq 0 n).

Definition ProductGridSkeleton : list placeholder := placeholders 8.

(** What the grid area shows. *)
Inductive grid_view : Type :=
| GridSkeleton (cells : list placeholder)
| ErrorMessage (message : js_string)
| EmptyMessage
| Grid (cards : list (ProductWithCategory * nat)).

(** [xs.map((x, index) => (x, index))] *)
Definition with_index (A : Type) (xs : list A) : list (A * nat) :=
  combine xs (seq 0 (length xs)).

(** [renderProductGrid] (lines 209-233). *)
Definition renderProductGrid (isLoadingProducts : bool)
    (productsError categoriesError : option js_string)
    (filtered : list ProductWithCategory) : grid_view :=
  if isLoadingProducts then GridSkeleton ProductGridSkeleton
  else match productsError with
  | Some message => ErrorMessage message
  | None =>
  match categoriesError with
  | Some message => ErrorMessage message
  | None =>
  match filtered with
  | [] => EmptyMessage
  | _ => Grid (with_index filtered)
  end end end.

(** [CategoriesNav] (lines 112-150): six placeholders while the
    categories load, else one button per category after the "All"
    pseudo-category; a button carries its name and whether it is the
    active one. *)
Inductive nav_view : Type :=
| NavSkeleton (cells : list placeholder)
| NavButtons (buttons : list (js_string * bool)).

Definition allCategories (cats : list Category) : list Category :=
  {| category_id := lit "all-cat-id"%string; category_name := All |} :: cats.

Definition CategoriesNav (cats : list Category) (activeCategory : js_string)
    (isLoading : bool) : nav_view :=
  if isLoading then NavSkeleton (placeholders 6)
  else NavButtons
         (map (fun c => (category_name c,
                         string_eqb activeCategory (category_name c)))
              (allCategories cats)).

(** What a grid view contains. *)
Definition skeleton_cells (v : grid_view) : nat :=
  match v with GridSkeleton cells => length cells | _ => 0 end.

Definition error_messages (v : grid_view) : nat :=
  match v with ErrorMessage _ => 1 | _ => 0 end.

Definition product_cards (v : grid_view) : list ProductWithCategory :=
  match v with Grid cards => map fst cards | _ => [] end.

(** The filter as the specification words it: the products whose category
    name equals the selection. *)
Definition category_is (sel : js_string) (p : ProductWithCategory) : Prop :=
  option_map cat_name (categories p) = Some sel.

Definition js_string_eq_dec : forall a b : js_string, {a = b} + {a <> b} :=
  list_eq_dec N.eq_dec.

Definition category_is_dec (sel : js_string) (p : ProductWithCategory) :
  {category_is sel p} + {~ category_is sel p}.
Proof.
  unfold category_is. destruct (option_map cat_name (categories p)) as [c|].
  - destruct (js_string_eq_dec c sel) as [E|N].
    + left. congruence.
    + right. congruence.
  - right. discriminate.
Defined.

Definition spec_filter (sel : js_string) (ps : list ProductWithCategory)
    : list ProductWithCategory :=
  filter (fun p => if category_is_dec sel p then true else false) ps.

(** The part of [Home] below the header: the navigation and the grid. *)
Record home_view : Type := { nav : nav_view; grid : grid_view }.

Definition Home (products : QueryResult (list ProductWithCategory))
    (cats : QueryResult (list Category)) (activeCategory : js_string)
    : home_view :=
  {| nav := CategoriesNav
              (match data cats with Some cs => cs | None => [] end)
              activeCategory (isLoading cats);
     grid := renderProductGrid (isLoading products) (error products)
               (error cats)
               (filteredProducts (data products) activeCategory) |}.

(** *** Header: the cart counter (lines 30-32, 59-66) *)

(** Modelled from the spec: a line of the cart as [useCart] returns it
    (the hook is not among the sources); the header reads its quantity. *)
Record CartItem : Type := { quantity : JS.number }.

(** [cartItems?.reduce((sum, item) => sum + item.quantity, 0) || 0] *)
Definition cartItemCount (cartItems : option (list CartItem)) : JS.number :=
  match cartItems with
  | Some items =>
      JS.or_else
        (fold_left (fun sum item => JS.add sum (quantity item)) items
                   (JS.of_Z 0))
        (JS.of_Z 0)
  | None => JS.of_Z 0
  end.

(** [{cartItemCount > 0 && <span>{cartItemCount}</span>}] *)
Definition cart_badge (cartItems : option (list CartItem))
    : option JS.number :=
  if JS.gtb (cartItemCount cartItems) (JS.of_Z 0)
  then Some (cartItemCount cartItems)
  else None.

(** The sum of a list of integers. *)
Definition total (qs : list Z) : Z := fold_right Z.add 0%Z qs.

(** *** The two fetches (lines 92-103, 167-179) *)

(** The answer of the backend client: rows, or an error. *)
Record Response (A E : Type) : Type := {
  response_data : option A;
  response_error : option E
}.

(** A line of the console: [console.error(label, error)]. *)
Inductive console_entry (E : Type) : Type :=
| ConsoleError (label : js_string) (err : E).

(** How the promise of a fetch settles. *)
Inductive settlement (A : Type) : Type :=
| Resolved (value : A)
| Rejected (message : js_string).
Arguments Rejected {A} message.

Definition products_failure : js_string :=
  lit "Failed to load products. Please try again later."%string.

Definition categories_failure : js_string :=
  lit "Failed to load categories."%string.

Definition fetchProducts (E : Type)
    (r : Response (list ProductWithCategory) E)
    : list (console_entry E)
      * settlement (option (list ProductWithCategory)) :=
  match response_error r with
  | Some e =>
      ([ConsoleError (lit "Error fetching products:"%string) e],
       Rejected products_failure)
  | None => ([], Resolved (response_data r))
  end.

Definition fetchCategories (E : Type) (r : Response (list Category) E)
    : list (console_entry E) * settlement (option (list Category)) :=
  match response_error r with
  | Some e =>
      ([ConsoleError (lit "Error fetching categories:"%string) e],
       Rejected categories_failure)
  | None => ([], Resolved (response_data r))
  end.

(** What [useQuery] hands to the renders that follow the settlement of
    its query function: the value, or the message of the error thrown. *)
Definition settled (A : Type) (o : settlement (option A)) : QueryResult A :=
  match o with
  | Resolved d => {| data := d; isLoading := false; error := None |}
  | Rejected m => {| data := None; isLoading := false; error := Some m |}
  end.

(** *** The active category (lines 191, 136, 241, 247) *)




End Home.

(* ================================================================= *)
(** ** Products and traces used as examples *)

Module Examples.

Import JS.

Definition product (i : js_string) (pr : number) (o : option number)
    (cat : option js_string) : ProductWithCategory :=
  {| id := i; name := lit "Product"%string; price := pr; original_price := o;
     image_url := None;
     categories := option_map (fun c => {| cat_name := c |}) cat |}.

(** Scenarios 1 and 2 of the specification. *)
Definition p1 : ProductWithCategory :=
  product (lit "p1"%string) (of_Z 100) (Some (of_Z 100)) None.

Definition p2 : ProductWithCategory :=
  product (lit "p2"%string) (of_Z 80) (Some (of_Z 100)) None.

(** 42.50 instead of 100.00: a drop of exactly 57.5 percent. *)
Definition p_42_50 : ProductWithCategory :=
  product (lit "p3"%string) (Fin (85 # 2)) (Some (of_Z 100)) None.

(** A negative price. *)
Definition p_negative : ProductWithCategory :=
  product (lit "a"%string) (of_Z (-100)) None None.

(** The empty id and the price 8.9999999999999982 (the binary64 value
    [5066549580791807 * 2^-49]). *)
Definition p_fraction : ProductWithCategory :=
  product [] (Fin (5066549580791807 # 562949953421312)) None None.

(** The price [2^1023], an integer and a binary64 value. *)
Definition p_huge : ProductWithCategory :=
  product (lit "a"%string) (of_Z (2 ^ 1023)) None None.

(** The same product read twice, the second time with another name and
    the price written as another fraction of the same value. *)
Definition p_again : ProductWithCategory :=
  {| id := lit "p2"%string; name := lit "Renamed"%string;
     price := Fin (160 # 2); original_price := None;
     image_url := Some (lit "x.png"%string); categories := None |}.

(** Another product of the same price whose id starts with the same code
    unit. *)
Definition p_same_initial : ProductWithCategory :=
  product (lit "p-other"%string) (of_Z 80) None None.

(** Scenario 3: a catalog with shoes and bags. *)
Definition shoes1 : ProductWithCategory :=
  product (lit "s1"%string) (of_Z 50) None (Some (lit "Shoes"%string)).
Definition bag1 : ProductWithCategory :=
  product (lit "b1"%string) (of_Z 70) None (Some (lit "Bags"%string)).
Definition shoes2 : ProductWithCategory :=
  product (lit "s2"%string) (of_Z 60) None (Some (lit "shoes"%string)).
Definition catalog : list ProductWithCategory := [shoes1; bag1; shoes2].

(** Operations of the model next to the same operations of the hardware:
    inexact quotients, ties, the least subnormal, overflow, the special
    values. *)
Definition hardware_cases : list (number * float) :=
  [ (div (of_Z 1) (of_Z 3), 1 / 3);
    (div (of_Z (-1)) (of_Z 10), -1 / 10);
    (add (div (of_Z 1) (of_Z 10)) (div (of_Z 2) (of_Z 10)), 1 / 10 + 2 / 10);
    (mul (div (of_Z 29) (of_Z 200)) (of_Z 100), 29 / 200 * 100);
    (div (mul (of_Z 100) (of_Z 29)) (of_Z 200), 100 * 29 / 200);
    (add (Fin (two ^ 53)) (of_Z 1), 0x1p+53 + 1);
    (add (Fin (two ^ 53)) (of_Z 3), 0x1p+53 + 3);
    (sub (of_Z 1) (Fin (two ^ (-54))), 1 - 0x1p-54);
    (sub (of_Z 1) (Fin (two ^ (-53))), 1 - 0x1p-53);
    (mul (Fin (two ^ (-1074))) (Fin (1 # 2)), 0x1p-1074 * 0.5);
    (mul (Fin (two ^ (-1074))) (Fin (3 # 2)), 0x1p-1074 * 1.5);
    (mul (Fin (two ^ (-1074))) (Fin (5 # 2)), 0x1p-1074 * 2.5);
    (div (Fin (two ^ (-1022))) (of_Z 3), 0x1p-1022 / 3);
    (mul (Fin (two ^ 1023)) (of_Z 2), 0x1p+1023 * 2);
    (add (Fin (two ^ 1023)) (Fin (two ^ 1023 - two ^ 970)),
     0x1p+1023 + 0x1.fffffffffffffp+1022);
    (mul (of_Z 3) (Fin (two ^ 1022)), 3 * 0x1p+1022);
    (div (of_Z (-7)) (of_Z 0), -7 / 0);
    (div (of_Z 0) (of_Z 0), 0 / 0);
    (div (of_Z 5) NInf, 5 / neg_infinity);
    (sub PInf PInf, infinity - infinity);
    (mul NInf (of_Z 0), neg_infinity * 0);
    (mul NInf (of_Z (-2)), neg_infinity * -2);
    (add (of_Z 4) (div (of_Z 9) (of_Z 10)), 4 + 9 / 10) ]%float.

(** A card whose mutation is pending, nothing scheduled. *)
Definition pending_card : ProductCard.card :=
  ProductCard.step ProductCard.initial_card ProductCard.Click.

(** A cart of three lines, 2 + 0 + 3 items. *)
Definition cart : list Home.CartItem :=
  [ {| Home.quantity := of_Z 2 |}; {| Home.quantity := of_Z 0 |};
    {| Home.quantity := of_Z 3 |} ].

(** Two categories as the backend lists them. *)
Definition categories_list : list Category :=
  [ {| category_id := lit "c1"%string; category_name := lit "Bags"%string |};
    {| category_id := lit "c2"%string; category_name := lit "Shoes"%string |} ].

(** A product without a category. *)
Definition p_uncategorized : ProductWithCategory :=
  product (lit "u1"%string) (of_Z 10) None None.

(** Scenario 2 again with 100 more on the price, and given away. *)
Definition p_plus_100 : ProductWithCategory :=
  product (lit "p2"%string) (of_Z 180) (Some (of_Z 200)) None.

Definition p_free : ProductWithCategory :=
  product (lit "p2"%string) (of_Z 0) (Some (of_Z 100)) None.

(** The catalog of scenario 3 has loaded; the load of the categories has
    failed. *)
Definition products_loaded : QueryResult (list ProductWithCategory) :=
  {| data := Some catalog; isLoading := false; error := None |}.

(** The id " " (code unit 32) and the price [8 - 2^-47]: the seed is
    [40 - 2^-47], the greatest binary64 value below 40. *)
Definition p_below_40 : ProductWithCategory :=
  product [32%N] (Fin (inject_Z 8 - two ^ (-47))) None None.

Definition categories_failed : QueryResult (list Category) :=
  {| data := None; isLoading := false;
     error := Some Home.categories_failure |}.

End Examples.

(* ================================================================= *)
(** ** Facts about rounding to binary64 *)

Section Rounding.

Import JS.
Local Open Scope Q_scope.

Lemma pow2_pos (e : Z) : 0 < two ^ e.
Proof. apply Qpower_0_lt. reflexivity. Qed.

Lemma pow2_add (a b : Z) : two ^ (a + b) == two ^ a * two ^ b.
Proof. apply Qpower_plus. discriminate. Qed.

Lemma pow2_le (a b : Z) : (a <= b)%Z -> two ^ a <= two ^ b.
Proof. intros H. apply Qpower_le_compat_l; [exact H | discriminate]. Qed.

Lemma pow2_lt (a b : Z) : (a < b)%Z -> two ^ a < two ^ b.
Proof. intros H. apply Qpower_lt_compat_l; [exact H | reflexivity]. Qed.

Lemma pow2_lt_inv (a b : Z) : two ^ a < two ^ b -> (a < b)%Z.
Proof. intros H. apply (Qpower_lt_compat_l_inv two); [exact H | reflexivity]. Qed.

Lemma pow2_Z (n : Z) : (0 <= n)%Z -> two ^ n == inject_Z (2 ^ n).
Proof. intros H. symmetry. apply (Zpower_Qpower 2 n H). Qed.

Lemma pow2_neq0 (e : Z) : ~ two ^ e == 0.
Proof. intros Z0. pose proof (pow2_pos e) as P. rewrite Z0 in P. discriminate. Qed.

(** A power of two is an integer multiple of every smaller one. *)
Lemma pow2_split (e k : Z) :
  (e <= k)%Z -> two ^ k == inject_Z (2 ^ (k - e)) * two ^ e.
Proof.
  intros H. rewrite <- pow2_Z by lia. rewrite <- pow2_add.
  replace (k - e + e)%Z with k by ring. reflexivity.
Qed.

Lemma Qmake_spec (n : Z) (d : positive) :
  (n # d) * inject_Z (Zpos d) == inject_Z n.
Proof. unfold Qeq, Qmult, inject_Z. simpl. rewrite Pos.mul_1_r. ring. Qed.

Lemma ilog2_spec (q : Q) :
  0 < q -> two ^ ilog2 q <= q /\ q < two ^ (ilog2 q + 1).
Proof.
  intros Hq. destruct q as [n d].
  assert (Hn : (0 < n)%Z).
  { unfold Qlt in Hq. simpl in Hq. lia. }
  pose proof (Z.log2_spec n Hn) as [Hn1 Hn2].
  pose proof (Z.log2_spec (Zpos d) (Pos2Z.is_pos d)) as [Hd1 Hd2].
  pose proof (Z.log2_nonneg n) as Ln.
  pose proof (Z.log2_nonneg (Zpos d)) as Ld.
  set (ln := Z.log2 n) in *. set (ld := Z.log2 (Zpos d)) in *.
  assert (Hd0 : 0 < inject_Z (Zpos d)) by reflexivity.
  assert (lower : two ^ (ln - ld - 1) <= n # d).
  { apply (Qmult_le_r _ _ (inject_Z (Zpos d))); [exact Hd0|].
    rewrite Qmake_spec.
    apply Qle_trans with (two ^ (ln - ld - 1) * two ^ (ld + 1)).
    - apply Qmult_le_l; [apply pow2_pos|].
      rewrite pow2_Z by lia. rewrite <- Zle_Qle. lia.
    - rewrite <- pow2_add. replace (ln - ld - 1 + (ld + 1))%Z with ln by ring.
      rewrite pow2_Z by lia. rewrite <- Zle_Qle. exact Hn1. }
  assert (upper : n # d < two ^ (ln - ld + 1)).
  { apply (Qmult_lt_r _ _ (inject_Z (Zpos d))); [exact Hd0|].
    rewrite Qmake_spec.
    apply Qlt_le_trans with (two ^ (ln - ld + 1) * two ^ ld).
    - rewrite <- pow2_add. replace (ln - ld + 1 + ld)%Z with (Z.succ ln) by lia.
      rewrite pow2_Z by lia. rewrite <- Zlt_Qlt. exact Hn2.
    - apply Qmult_le_l; [apply pow2_pos|].
      rewrite pow2_Z by lia. rewrite <- Zle_Qle. exact Hd1. }
  unfold ilog2. simpl Qnum. simpl Qden. fold ln. fold ld.
  destruct (Qle_bool (two ^ (ln - ld)) (n # d)) eqn:E.
  - split; [apply Qle_bool_iff; exact E | exact upper].
  - split; [exact lower|].
    replace (ln - ld - 1 + 1)%Z with (ln - ld)%Z by ring.
    apply Qnot_le_lt. intro H. apply Qle_bool_iff in H. congruence.
Qed.

Lemma some_eq (A : Type) (a b : A) : Some a = Some b -> a = b.
Proof. congruence. Qed.

(** *** Rounding to an integer *)

Lemma rnd_bounds (q : Q) : (Qfloor q <= rnd q <= Qfloor q + 1)%Z.
Proof.
  unfold rnd. destruct (Qcompare _ _); [destruct (Z.even _)| |]; lia.
Qed.

Lemma rnd_Z (q : Q) (z : Z) : q == inject_Z z -> rnd q = z.
Proof.
  intros H. unfold rnd. rewrite (Qfloor_comp _ _ H), Qfloor_Z.
  assert (L : q - inject_Z z < 1 # 2).
  { rewrite H. setoid_replace (inject_Z z - inject_Z z) with 0 by ring.
    reflexivity. }
  destruct (Qcompare_spec (q - inject_Z z) (1 # 2)) as [E|_|G]; [|reflexivity|].
  - rewrite E in L. discriminate.
  - exfalso. apply (Qlt_irrefl (1 # 2)). eapply Qlt_trans; eauto.
Qed.

Lemma rnd_le_Z (q : Q) (b : Z) : q <= inject_Z b -> (rnd q <= b)%Z.
Proof.
  intros H. destruct (Qeq_dec q (inject_Z b)) as [E|N].
  - rewrite (rnd_Z E). lia.
  - assert (Hlt : q < inject_Z b) by (apply Qle_lteq in H; tauto).
    pose proof (Qfloor_le q) as Hf. pose proof (rnd_bounds q).
    assert (inject_Z (Qfloor q) < inject_Z b) by (eapply Qle_lt_trans; eauto).
    rewrite <- Zlt_Qlt in *. lia.
Qed.

Lemma rnd_ge_Z (q : Q) (b : Z) : inject_Z b <= q -> (b <= rnd q)%Z.
Proof.
  intros H. apply Qfloor_resp_le in H. rewrite Qfloor_Z in H.
  pose proof (rnd_bounds q). lia.
Qed.

(** *** Values with a 53-bit mantissa *)


Lemma dyadic_lt (q : Q) (m k : Z) : dyadic q m k -> q < two ^ (prec + k).
Proof.
  intros (E & Hm & _). rewrite E, pow2_add.
  apply Qmult_lt_r; [apply pow2_pos|].
  rewrite pow2_Z by (unfold prec; lia). rewrite <- Zlt_Qlt. lia.
Qed.

Lemma ulp_exp_le (x B : Q) (m k : Z) :
  0 < x -> x <= B -> dyadic B m k -> (ulp_exp x <= k)%Z.
Proof.
  intros Hx HxB HB. pose proof (dyadic_lt HB) as Hlt.
  destruct (ilog2_spec Hx) as [Hl _].
  assert (H : two ^ ilog2 x < two ^ (prec + k)).
  { eapply Qle_lt_trans; [exact Hl|]. eapply Qle_lt_trans; eauto. }
  apply pow2_lt_inv in H. destruct HB as (_ & _ & Hk).
  unfold ulp_exp. unfold prec in *. lia.
Qed.

(** A dyadic value is an integer number of units of any smaller exponent. *)
Lemma units (B : Q) (m k e : Z) :
  B == inject_Z m * two ^ k -> (e <= k)%Z ->
  B / two ^ e == inject_Z (m * 2 ^ (k - e)).
Proof.
  intros E He. rewrite E, (pow2_split He), inject_Z_mult.
  field. apply pow2_neq0.
Qed.

Lemma dyadic_units (B : Q) (m k e : Z) :
  dyadic B m k -> (e <= k)%Z -> B / two ^ e == inject_Z (m * 2 ^ (k - e)).
Proof. intros (E & _). apply units, E. Qed.

Lemma div_pow2_mul (x : Q) (e : Z) : x / two ^ e * two ^ e == x.
Proof.
  field. apply pow2_neq0.
Qed.

Lemma div_pow2_le (x y : Q) (e : Z) : x <= y -> x / two ^ e <= y / two ^ e.
Proof.
  intros H. unfold Qdiv. apply Qmult_le_compat_r; [exact H|].
  apply Qinv_le_0_compat, Qlt_le_weak, pow2_pos.
Qed.

Lemma round_pos_le (x B : Q) (m k : Z) :
  0 < x -> x <= B -> dyadic B m k -> B < two ^ emax ->
  exists r, round_pos x = Some r /\ 0 <= r /\ r <= B.
Proof.
  intros Hx HxB HB Hmax.
  pose proof (ulp_exp_le Hx HxB HB) as He.
  pose proof (dyadic_units HB He) as HBu.
  unfold round_pos. set (e := ulp_exp x) in *.
  assert (H1 : (rnd (x / two ^ e) <= m * 2 ^ (k - e))%Z).
  { apply rnd_le_Z. rewrite <- HBu. apply div_pow2_le, HxB. }
  assert (H0 : (0 <= rnd (x / two ^ e))%Z).
  { apply rnd_ge_Z. apply Qle_shift_div_l; [apply pow2_pos|].
    rewrite Qmult_0_l. apply Qlt_le_weak, Hx. }
  assert (Hr : inject_Z (rnd (x / two ^ e)) * two ^ e <= B).
  { rewrite <- (div_pow2_mul B e), HBu.
    apply Qmult_le_compat_r; [|apply Qlt_le_weak, pow2_pos].
    rewrite <- Zle_Qle. exact H1. }
  destruct (Qle_bool _ _) eqn:E.
  - apply Qle_bool_iff in E. exfalso.
    apply (Qlt_irrefl B). eapply Qlt_le_trans; [exact Hmax|].
    eapply Qle_trans; eauto.
  - exists (Qred (inject_Z (rnd (x / two ^ e)) * two ^ e)).
    split; [reflexivity|]. split; [rewrite Qred_correct | rewrite Qred_correct; exact Hr].
    apply Qmult_le_0_compat; [|apply Qlt_le_weak, pow2_pos].
    change 0 with (inject_Z 0). rewrite <- Zle_Qle. exact H0.
Qed.

Lemma round_pos_ge (x B r : Q) (m k : Z) :
  0 < B -> B <= x -> dyadic B m k -> round_pos x = Some r -> B <= r.
Proof.
  intros HB HBx HD. unfold round_pos.
  assert (Hx : 0 < x) by (eapply Qlt_le_trans; eauto).
  set (e := ulp_exp x). destruct (Qle_bool _ _); [discriminate|].
  intros H. apply some_eq in H. subst r. rewrite Qred_correct.
  destruct (Z_le_gt_dec e k) as [He|He].
  - pose proof (dyadic_units HD He) as HBu.
    rewrite <- (div_pow2_mul B e), HBu.
    apply Qmult_le_compat_r; [|apply Qlt_le_weak, pow2_pos].
    rewrite <- Zle_Qle. apply rnd_ge_Z. rewrite <- HBu. apply div_pow2_le, HBx.
  - pose proof (dyadic_lt HD) as Hlt.
    assert (Ee : e = (ilog2 x - (prec - 1))%Z).
    { destruct HD as (_ & _ & Hk). unfold e, ulp_exp in *. lia. }
    destruct (ilog2_spec Hx) as [Hl _].
    apply Qle_trans with (two ^ ilog2 x).
    + apply Qlt_le_weak. eapply Qlt_le_trans; [exact Hlt|].
      apply pow2_le. unfold prec in *. lia.
    + assert (Es : (e <= ilog2 x)%Z) by (unfold prec in *; lia).
      rewrite (pow2_split Es).
      apply Qmult_le_compat_r; [|apply Qlt_le_weak, pow2_pos].
      rewrite <- Zle_Qle. apply rnd_ge_Z.
      apply Qle_shift_div_l; [apply pow2_pos|].
      rewrite <- (pow2_split Es). exact Hl.
Qed.

Lemma round_pos_exact (x : Q) (m k : Z) :
  0 < x -> dyadic x m k -> x < two ^ emax -> round_pos x = Some (Qred x).
Proof.
  intros Hx HD Hmax.
  pose proof (ulp_exp_le Hx (Qle_refl x) HD) as He.
  pose proof (dyadic_units HD He) as Hu.
  unfold round_pos. set (e := ulp_exp x) in *.
  rewrite (rnd_Z Hu).
  assert (E : inject_Z (m * 2 ^ (k - e)) * two ^ e == x).
  { rewrite <- Hu. apply div_pow2_mul. }
  destruct (Qle_bool _ _) eqn:B.
  - apply Qle_bool_iff in B. rewrite E in B. exfalso.
    apply (Qlt_irrefl x). eapply Qlt_le_trans; eauto.
  - f_equal. apply Qred_complete, E.
Qed.

(** Rounding an integer gives an integer. *)
Lemma round_pos_int (x r : Q) (z : Z) :
  0 < x -> x == inject_Z z -> round_pos x = Some r ->
  exists z', r == inject_Z z'.
Proof.
  intros Hx Ez. unfold round_pos. set (e := ulp_exp x).
  destruct (Qle_bool _ _); [discriminate|].
  intros H. apply some_eq in H. subst r.
  destruct (Z_le_gt_dec e 0) as [He|He].
  - exists z. rewrite Qred_correct.
    assert (Hu : x / two ^ e == inject_Z (z * 2 ^ (0 - e))).
    { apply units; [|exact He]. rewrite Ez. simpl. ring. }
    rewrite (rnd_Z Hu), <- Hu, div_pow2_mul. exact Ez.
  - exists (rnd (x / two ^ e) * 2 ^ e)%Z. rewrite Qred_correct.
    rewrite inject_Z_mult. apply Qmult_comp; [reflexivity|]. apply pow2_Z. lia.
Qed.

(** *** Rounding respects the equality of rationals *)

Lemma ilog2_unique (q : Q) (l : Z) :
  two ^ l <= q -> q < two ^ (l + 1) -> ilog2 q = l.
Proof.
  intros H1 H2.
  assert (Hq : 0 < q) by (eapply Qlt_le_trans; [apply pow2_pos | exact H1]).
  destruct (ilog2_spec Hq) as [G1 G2].
  assert (A : (ilog2 q < l + 1)%Z).
  { apply pow2_lt_inv. eapply Qle_lt_trans; eauto. }
  assert (B : (l < ilog2 q + 1)%Z).
  { apply pow2_lt_inv. eapply Qle_lt_trans; eauto. }
  lia.
Qed.

Lemma ilog2_comp (p q : Q) : 0 < p -> p == q -> ilog2 p = ilog2 q.
Proof.
  intros Hp E. destruct (ilog2_spec Hp) as [G1 G2].
  symmetry. apply ilog2_unique; rewrite <- E; assumption.
Qed.

Lemma rnd_comp (p q : Q) : p == q -> rnd p = rnd q.
Proof.
  intros E. unfold rnd. rewrite (Qfloor_comp _ _ E).
  assert (C : Qcompare (p - inject_Z (Qfloor q)) (1 # 2)
              = Qcompare (q - inject_Z (Qfloor q)) (1 # 2)).
  { apply Qcompare_comp; [rewrite E|]; reflexivity. }
  rewrite C. reflexivity.
Qed.

Lemma round_pos_comp (p q : Q) : 0 < p -> p == q -> round_pos p = round_pos q.
Proof.
  intros Hp E. unfold round_pos, ulp_exp. rewrite (ilog2_comp Hp E).
  set (e := Z.max _ _).
  assert (R : rnd (p / two ^ e) = rnd (q / two ^ e)).
  { apply rnd_comp. rewrite E. reflexivity. }
  rewrite R. reflexivity.
Qed.

Lemma round_comp (p q : Q) : p == q -> round p = round q.
Proof.
  intros E. unfold round.
  assert (C : Qcompare p 0 = Qcompare q 0).
  { apply Qcompare_comp; [exact E | reflexivity]. }
  rewrite <- C. destruct (Qcompare_spec p 0) as [_|L|G].
  - reflexivity.
  - rewrite (@round_pos_comp (- p) (- q)); [reflexivity| |rewrite E; reflexivity].
    apply (Qopp_lt_compat p 0) in L. exact L.
  - rewrite (round_pos_comp G E). reflexivity.
Qed.

Lemma Qred_inject_Z (z : Z) : Qred (inject_Z z) = inject_Z z.
Proof. apply Qcanon.Qred_identity. simpl. apply Z.gcd_1_r. Qed.

Lemma round_le (x B : Q) (m k : Z) :
  0 <= x -> x <= B -> dyadic B m k -> B < two ^ emax ->
  exists r, round x = Fin r /\ 0 <= r /\ r <= B.
Proof.
  intros Hx HxB HD Hmax. unfold round.
  destruct (Qcompare_spec x 0) as [E|L|G].
  - exists 0. split; [reflexivity|]. split; [apply Qle_refl|].
    rewrite <- E. exact HxB.
  - exfalso. apply (Qlt_irrefl x). eapply Qlt_le_trans; eauto.
  - destruct (round_pos_le G HxB HD Hmax) as (r & -> & Hr). exists r. tauto.
Qed.

Lemma round_ge (x B r : Q) (m k : Z) :
  0 < B -> B <= x -> dyadic B m k -> round x = Fin r -> B <= r.
Proof.
  intros HB HBx HD. unfold round.
  assert (G : 0 < x) by (eapply Qlt_le_trans; eauto).
  destruct (Qcompare_spec x 0) as [E|L|_].
  - rewrite E in G. discriminate.
  - exfalso. apply (Qlt_irrefl x). eapply Qlt_trans; eauto.
  - destruct (round_pos x) as [r'|] eqn:R; [|discriminate].
    intros H. assert (r' = r) by congruence. subst r'.
    exact (round_pos_ge HB HBx HD R).
Qed.

Lemma round_exact (x : Q) (m k : Z) :
  0 <= x -> dyadic x m k -> x < two ^ emax -> round x = Fin (Qred x).
Proof.
  intros Hx HD Hmax. unfold round.
  destruct (Qcompare_spec x 0) as [E|L|G].
  - f_equal. symmetry. apply (Qred_complete x 0 E).
  - exfalso. apply (Qlt_irrefl x). eapply Qlt_le_trans; eauto.
  - rewrite (round_pos_exact G HD Hmax). reflexivity.
Qed.

Lemma round_int (x r : Q) (z : Z) :
  0 <= x -> x == inject_Z z -> round x = Fin r -> exists z', r == inject_Z z'.
Proof.
  intros Hx Ez. unfold round.
  destruct (Qcompare_spec x 0) as [E|L|G].
  - intros H. exists 0%Z. assert (r = 0) by congruence. subst r. reflexivity.
  - exfalso. apply (Qlt_irrefl x). eapply Qlt_le_trans; eauto.
  - destruct (round_pos x) as [r'|] eqn:R; [|discriminate].
    intros H. assert (r' = r) by congruence. subst r'.
    exact (round_pos_int G Ez R).
Qed.

(** A positive binary64 value has a 53-bit mantissa and is below 2^1024. *)
Lemma is_double_dyadic (q : Q) :
  0 < q -> is_double (Fin q) = true ->
  exists m k, dyadic q m k /\ q < two ^ emax.
Proof.
  intros Hq. unfold is_double, round.
  destruct (Qcompare_spec q 0) as [E|L|_].
  - rewrite E in Hq. discriminate.
  - exfalso. apply (Qlt_irrefl q). eapply Qlt_trans; eauto.
  - unfold round_pos. set (e := ulp_exp q). set (m := rnd (q / two ^ e)).
    destruct (Qle_bool _ _) eqn:B; [discriminate|].
    intros H. apply Qeq_bool_iff in H. rewrite Qred_correct in H.
    assert (Hmax : q < two ^ emax).
    { rewrite <- H. apply Qnot_le_lt. intro C. apply Qle_bool_iff in C. congruence. }
    exists m, e. split; [|exact Hmax].
    assert (Hm : q / two ^ e == inject_Z m).
    { rewrite <- H at 1. unfold Qdiv. rewrite <- Qmult_assoc, Qmult_inv_r, Qmult_1_r.
      - reflexivity.
      - apply pow2_neq0. }
    split; [symmetry; exact H|]. split; [|unfold e, ulp_exp; lia].
    destruct (ilog2_spec Hq) as [_ Hu].
    assert (He : (ilog2 q + 1 <= prec + e)%Z) by (unfold e, ulp_exp, prec; lia).
    assert (Hlt : inject_Z m < inject_Z (2 ^ prec)).
    { rewrite <- Hm. apply Qlt_shift_div_r; [apply pow2_pos|].
      rewrite <- pow2_Z by (unfold prec; lia). rewrite <- pow2_add.
      eapply Qlt_le_trans; [exact Hu|]. apply pow2_le, He. }
    assert (Hge : inject_Z 0 <= inject_Z m).
    { rewrite <- Hm. apply Qle_shift_div_l; [apply pow2_pos|].
      rewrite Qmult_0_l. apply Qlt_le_weak, Hq. }
    rewrite <- Zlt_Qlt in Hlt. rewrite <- Zle_Qle in Hge. lia.
Qed.

(** *** The remainder *)

Lemma Qtrunc_nonneg (q : Q) : 0 <= q -> Qtrunc q = Qfloor q.
Proof.
  intros H. destruct q as [n d]. unfold Qtrunc, Qfloor. simpl.
  assert (0 <= n)%Z by (unfold Qle in H; simpl in H; lia).
  apply Z.quot_div_nonneg; lia.
Qed.

Lemma rem_range (a b : Q) :
  0 <= a -> 0 < b ->
  exists t, rem (Fin a) (Fin b) = Fin t /\ 0 <= t /\ t < b /\
            t == a - b * inject_Z (Qfloor (a / b)).
Proof.
  intros Ha Hb. unfold rem.
  assert (Hab : 0 <= a / b).
  { apply Qle_shift_div_l; [exact Hb|]. rewrite Qmult_0_l. exact Ha. }
  destruct (Qeq_bool b 0) eqn:E.
  { apply Qeq_bool_iff in E. rewrite E in Hb. discriminate. }
  rewrite (Qtrunc_nonneg Hab).
  eexists. split; [reflexivity|]. rewrite Qred_correct.
  pose proof (Qfloor_le (a / b)) as F1. pose proof (Qlt_floor (a / b)) as F2.
  assert (Hb0 : ~ b == 0) by (intro Z0; rewrite Z0 in Hb; discriminate).
  assert (Ea : a == b * (a / b)) by (field; exact Hb0).
  set (F := inject_Z (Qfloor (a / b))) in *.
  split; [|split; [|reflexivity]].
  - apply (Qmult_le_l _ _ b Hb) in F1. rewrite <- Ea in F1.
    apply (Qplus_le_l _ _ (- (b * F))) in F1.
    setoid_replace (b * F + - (b * F)) with 0 in F1 by ring. exact F1.
  - apply (Qmult_lt_l _ _ b Hb) in F2. rewrite <- Ea in F2.
    rewrite inject_Z_plus in F2. fold F in F2.
    apply (Qplus_lt_l _ _ (- (b * F))) in F2.
    setoid_replace (b * (F + inject_Z 1) + - (b * F)) with b in F2 by ring.
    exact F2.
Qed.

Lemma inject_Z_pos (z : Z) : (0 < z)%Z -> 0 < inject_Z z.
Proof. intros H. change (inject_Z 0 < inject_Z z). rewrite <- Zlt_Qlt. exact H. Qed.

Lemma inject_Z_nonneg (z : Z) : (0 <= z)%Z -> 0 <= inject_Z z.
Proof. intros H. change (inject_Z 0 <= inject_Z z). rewrite <- Zle_Qle. exact H. Qed.

(** The remainder of two integers is the integer remainder. *)
Lemma rem_int (a : Q) (z b : Z) :
  (0 <= z)%Z -> (0 < b)%Z -> a == inject_Z z ->
  rem (Fin a) (of_Z b) = of_Z (z mod b).
Proof.
  intros Hz Hb Ea. unfold rem, of_Z.
  destruct (Qeq_bool (inject_Z b) 0) eqn:E.
  { apply Qeq_bool_iff in E. unfold Qeq in E. simpl in E. lia. }
  f_equal. rewrite <- (Qred_inject_Z (z mod b)). apply Qred_complete.
  assert (Hq : 0 <= a / inject_Z b).
  { apply Qle_shift_div_l; [apply inject_Z_pos, Hb|].
    rewrite Qmult_0_l, Ea. apply inject_Z_nonneg, Hz. }
  rewrite (Qtrunc_nonneg Hq).
  assert (F : Qfloor (a / inject_Z b) = (z / b)%Z).
  { rewrite (Zdiv_Qdiv z b). apply Qfloor_comp. rewrite Ea. reflexivity. }
  rewrite F, Ea, <- inject_Z_mult.
  unfold Qminus. rewrite <- inject_Z_opp, <- inject_Z_plus.
  rewrite Z.mod_eq by lia. reflexivity.
Qed.

(** *** Next to the overflow threshold *)

Lemma rnd_lt_half (y : Q) (n : Z) :
  y < inject_Z n - (1 # 2) -> (rnd y <= n - 1)%Z.
Proof.
  intros H. pose proof (Qfloor_le y) as F. pose proof (rnd_bounds y) as B.
  assert (Hf : (Qfloor y < n)%Z).
  { rewrite Zlt_Qlt. eapply Qle_lt_trans; [exact F|].
    eapply Qlt_le_trans; [exact H|].
    setoid_replace (inject_Z n) with (inject_Z n - 0) at 2 by ring.
    apply Qplus_le_r. discriminate. }
  destruct (Z.eq_dec (Qfloor y) (n - 1)) as [E|N]; [|lia].
  unfold rnd. rewrite E.
  assert (L : y - inject_Z (n - 1) < 1 # 2).
  { apply (Qplus_lt_l _ _ (- inject_Z (n - 1))) in H.
    setoid_replace (inject_Z n - (1 # 2) + - inject_Z (n - 1)) with (1 # 2) in H.
    - exact H.
    - unfold Zminus. rewrite inject_Z_plus. simpl inject_Z at 3. ring. }
  destruct (Qcompare_spec (y - inject_Z (n - 1)) (1 # 2)) as [C|_|G]; [|lia|].
  - rewrite C in L. discriminate.
  - exfalso. apply (Qlt_irrefl (1 # 2)). eapply Qlt_trans; eauto.
Qed.

(** Just below [2^1024 - 2^970] rounding does not overflow. *)
Lemma round_pos_top (x : Q) :
  two ^ 1023 <= x -> x < two ^ 1024 - two ^ 970 ->
  exists r, round_pos x = Some r.
Proof.
  intros Lo Hi.
  assert (Hi' : x < two ^ (1023 + 1)).
  { eapply Qlt_le_trans; [exact Hi|]. simpl Z.add.
    setoid_replace (two ^ 1024) with (two ^ 1024 - 0) at 2 by ring.
    apply Qplus_le_r. apply Qopp_le_compat, Qlt_le_weak, pow2_pos. }
  pose proof (@ilog2_unique x 1023 Lo Hi') as L.
  unfold round_pos, ulp_exp. rewrite L. simpl Z.max.
  assert (R : (rnd (x / two ^ 971) <= 2 ^ 53 - 1)%Z).
  { apply rnd_lt_half. apply Qlt_shift_div_r; [apply pow2_pos|].
    eapply Qlt_le_trans; [exact Hi|].
    setoid_replace ((inject_Z (2 ^ 53) - (1 # 2)) * two ^ 971)
      with (two ^ 53 * two ^ 971 - two ^ (-1) * two ^ 971).
    - rewrite <- !pow2_add. apply Qle_refl.
    - rewrite <- pow2_Z by discriminate. change (two ^ (-1)) with (1 # 2). ring. }
  destruct (Qle_bool _ _) eqn:B; [|eexists; reflexivity].
  exfalso. apply Qle_bool_iff in B.
  assert (C : inject_Z (rnd (x / two ^ 971)) * two ^ 971 < two ^ emax).
  { apply Qle_lt_trans with (inject_Z (2 ^ 53 - 1) * two ^ 971).
    - apply Qmult_le_compat_r; [|apply Qlt_le_weak, pow2_pos].
      rewrite <- Zle_Qle. exact R.
    - change emax with (53 + 971)%Z. rewrite pow2_add.
      apply Qmult_lt_r; [apply pow2_pos|].
      rewrite pow2_Z by discriminate. rewrite <- Zlt_Qlt. lia. }
  apply (Qlt_irrefl (two ^ emax)). eapply Qle_lt_trans; eauto.
Qed.

(** The largest binary64 value is [2^1024 - 2^971]. *)
Lemma dyadic_le_max (q : Q) (m k : Z) :
  dyadic q m k -> q < two ^ emax -> q <= two ^ 1024 - two ^ 971.
Proof.
  intros HD Hmax. destruct (Z_le_gt_dec 971 k) as [Hk|Hk].
  - pose proof (dyadic_units HD Hk) as U.
    assert (M : (m * 2 ^ (k - 971) < 2 ^ 53)%Z).
    { rewrite Zlt_Qlt, <- U. apply Qlt_shift_div_r; [apply pow2_pos|].
      rewrite <- pow2_Z by discriminate. rewrite <- pow2_add. exact Hmax. }
    rewrite <- (div_pow2_mul q 971), U.
    apply Qle_trans with (inject_Z (2 ^ 53 - 1) * two ^ 971).
    + apply Qmult_le_compat_r; [|apply Qlt_le_weak, pow2_pos].
      rewrite <- Zle_Qle. lia.
    + unfold Zminus. rewrite inject_Z_plus, <- pow2_Z by discriminate.
      setoid_replace ((two ^ 53 + inject_Z (- (1))) * two ^ 971)
        with (two ^ 53 * two ^ 971 - two ^ 971) by (simpl inject_Z; ring).
      rewrite <- pow2_add. apply Qle_refl.
  - apply Qlt_le_weak. eapply Qlt_le_trans; [apply (dyadic_lt HD)|].
    apply Qle_trans with (two ^ 1023); [apply pow2_le; unfold prec; lia|].
    setoid_replace (two ^ 1024) with (two ^ 1023 + two ^ 1023).
    + unfold Qminus. rewrite <- Qplus_assoc.
      setoid_replace (two ^ 1023) with (two ^ 1023 + 0) at 1 by ring.
      apply Qplus_le_r.
      apply (Qplus_le_l _ _ (two ^ 971)). ring_simplify.
      apply pow2_le. lia.
    + change 1024%Z with (1023 + 1)%Z. rewrite pow2_add.
      change (two ^ 1) with (inject_Z 2). ring.
Qed.

Lemma round_finite (x : Q) :
  0 <= x -> x < two ^ 1024 - two ^ 970 -> exists r, round x = Fin r.
Proof.
  intros H0 Hi. unfold round. destruct (Qcompare_spec x 0) as [E|L|G].
  - exists 0. reflexivity.
  - exfalso. apply (Qlt_irrefl x). eapply Qlt_le_trans; eauto.
  - destruct (Qlt_le_dec x (two ^ 1023)) as [S|S].
    + destruct (@round_pos_le x (two ^ 1023) 1 1023 G (Qlt_le_weak _ _ S))
        as (r & -> & _).
      * split; [rewrite Qmult_1_l; reflexivity|]. split; [reflexivity|discriminate].
      * apply pow2_lt. reflexivity.
      * exists r. reflexivity.
    + destruct (round_pos_top S Hi) as (r & ->). exists r. reflexivity.
Qed.

End Rounding.

(* ================================================================= *)
(** ** ProductCard.tsx: the derived values *)

Section DerivedValues.

Import JS ProductCard.
Local Open Scope Q_scope.

Lemma dyadic_pow2 (k : Z) : (emin <= k)%Z -> dyadic (two ^ k) 1 k.
Proof.
  intros H. split; [|split; [reflexivity | exact H]].
  rewrite Qmult_1_l. reflexivity.
Qed.

Lemma dyadic_int (z : Z) : (Z.abs z < 2 ^ prec)%Z -> dyadic (inject_Z z) z 0.
Proof.
  intros H. split; [|split; [exact H | discriminate]].
  simpl. rewrite Qmult_1_r. reflexivity.
Qed.

Lemma int_lt_max (z : Z) : (z < 2 ^ prec)%Z -> inject_Z z < two ^ emax.
Proof.
  intros H. apply Qlt_le_trans with (inject_Z (2 ^ prec)).
  - rewrite <- Zlt_Qlt. exact H.
  - rewrite <- pow2_Z by discriminate. apply pow2_le. discriminate.
Qed.

(** Small integers are binary64 values, and adding them is exact. *)
Lemma add_int (a b : Z) :
  (0 <= a + b < 2 ^ prec)%Z -> add (of_Z a) (of_Z b) = of_Z (a + b).
Proof.
  intros H. unfold add, of_Z.
  rewrite (@round_comp (inject_Z a + inject_Z b) (inject_Z (a + b)))
    by (rewrite inject_Z_plus; reflexivity).
  rewrite (@round_exact (inject_Z (a + b)) (a + b) 0).
  - rewrite Qred_inject_Z. reflexivity.
  - apply inject_Z_nonneg. lia.
  - apply dyadic_int. lia.
  - apply int_lt_max. lia.
Qed.

(** *** The seed *)

Lemma first_code (s : js_string) :
  wf_string s = true ->
  exists c, or_else (charCodeAt s 0) (of_Z 1) = of_Z c /\ (1 <= c <= 65535)%Z.
Proof.
  intros W. destruct s as [|c s'].
  - exists 1%Z. split; [reflexivity | lia].
  - simpl in W. apply andb_prop in W. destruct W as [W _].
    unfold code_unit_ok in W. apply N.ltb_lt in W.
    unfold charCodeAt. simpl nth_error. cbv iota.
    destruct (N.eq_dec c 0) as [->|N0].
    + exists 1%Z. split; [reflexivity | lia].
    + exists (Z.of_N c). split; [|lia].
      unfold or_else, truthy, of_Z, is_nan, is_zero. simpl orb.
      destruct (Qeq_bool (inject_Z (Z.of_N c)) 0) eqn:E; [|reflexivity].
      apply Qeq_bool_iff in E. unfold Qeq in E. simpl in E. lia.
Qed.

Lemma price_or_one (q : Q) :
  0 <= q ->
  (q == 0 /\ or_else (Fin q) (of_Z 1) = of_Z 1) \/
  (0 < q /\ or_else (Fin q) (of_Z 1) = Fin q).
Proof.
  intros H. unfold or_else, truthy, is_nan, is_zero. simpl orb.
  destruct (Qeq_bool q 0) eqn:E.
  - left. apply Qeq_bool_iff in E. split; [exact E | reflexivity].
  - right. split; [|reflexivity]. apply Qle_lteq in H. destruct H as [H|H]; [exact H|].
    symmetry in H. apply Qeq_bool_iff in H. congruence.
Qed.

Lemma small_plus_pow2 (c : Z) (k : Z) :
  (c <= 65535)%Z -> (16 <= k)%Z -> inject_Z c + two ^ k <= two ^ (k + 1).
Proof.
  intros Hc Hk. rewrite pow2_add.
  change (two ^ 1) with (inject_Z 2).
  setoid_replace (two ^ k * inject_Z 2) with (two ^ k + two ^ k) by ring.
  apply Qplus_le_l. apply Qle_trans with (two ^ 16).
  - rewrite pow2_Z by discriminate. rewrite <- Zle_Qle. simpl. lia.
  - apply pow2_le, Hk.
Qed.

(** The seed of a product with a price in [0, 2^k] is a value in
    [1, 2^(k+1)], and an integer when the price is one. *)
Lemma seed_range (p : ProductWithCategory) (q : Q) (k : Z) :
  wf_string (id p) = true -> price p = Fin q -> 0 <= q -> q <= two ^ k ->
  (16 <= k < 1023)%Z ->
  exists s, seed p = Fin s /\ 1 <= s /\ s <= two ^ (k + 1) /\
            forall z, q == inject_Z z -> exists sz, s == inject_Z sz.
Proof.
  intros W P H0 Hk Kr. unfold seed. rewrite P.
  destruct (first_code (id p) W) as (c & -> & Hc).
  assert (Hq' : exists q', or_else (Fin q) (of_Z 1) = Fin q' /\ 0 < q' /\
                  q' <= two ^ k /\
                  forall z, q == inject_Z z -> exists z', q' == inject_Z z').
  { destruct (price_or_one H0) as [[E ->]|[G ->]].
    - exists (inject_Z 1). split; [reflexivity|]. split; [reflexivity|].
      split; [|intros; exists 1%Z; reflexivity].
      change (inject_Z 1) with (two ^ 0). apply pow2_le. lia.
    - exists q. split; [reflexivity|]. split; [exact G|]. split; [exact Hk|].
      intros z Ez. exists z. exact Ez. }
  destruct Hq' as (q' & -> & G & Hk' & Hint).
  unfold add, of_Z.
  assert (Lo : 1 <= inject_Z c + q').
  { setoid_replace 1 with (inject_Z 1 + 0) by reflexivity.
    apply Qplus_le_compat; [rewrite <- Zle_Qle; lia | apply Qlt_le_weak, G]. }
  assert (Hi : inject_Z c + q' <= two ^ (k + 1)).
  { eapply Qle_trans; [|apply (@small_plus_pow2 c k); lia].
    apply Qplus_le_r, Hk'. }
  assert (Nn : 0 <= inject_Z c + q').
  { eapply Qle_trans; [|exact Lo]. discriminate. }
  destruct (@round_le _ _ 1 (k + 1) Nn Hi) as (s & R & _ & Hs).
  { apply dyadic_pow2. unfold emin. lia. }
  { apply pow2_lt. unfold emax. lia. }
  exists s. split; [exact R|]. split; [|split; [exact Hs|]].
  - apply (@round_ge (inject_Z c + q') 1 s 1 0); [reflexivity | exact Lo | | exact R].
    apply (dyadic_int 1). reflexivity.
  - intros z Ez. destruct (Hint z Ez) as (z' & Ez').
    apply (@round_int (inject_Z c + q') s (c + z') Nn); [|exact R].
    rewrite Ez', inject_Z_plus. reflexivity.
Qed.

(** The seed of a product whose price is a binary64 value that is not
    negative is finite and at least 1, and an integer when the price is
    one. *)
Lemma seed_finite (p : ProductWithCategory) (q : Q) :
  wf_string (id p) = true -> price p = Fin q -> is_double (Fin q) = true ->
  0 <= q ->
  exists s, seed p = Fin s /\ 1 <= s /\
            forall z, q == inject_Z z -> exists sz, s == inject_Z sz.
Proof.
  intros W P D H0. unfold seed. rewrite P.
  destruct (first_code (id p) W) as (c & -> & Hc).
  assert (Hq' : exists q', or_else (Fin q) (of_Z 1) = Fin q' /\ 0 < q' /\
                  q' <= two ^ 1024 - two ^ 971 /\
                  forall z, q == inject_Z z -> exists z', q' == inject_Z z').
  { destruct (price_or_one H0) as [[E ->]|[G ->]].
    - exists (inject_Z 1). split; [reflexivity|]. split; [reflexivity|].
      split; [|intros; exists 1%Z; reflexivity].
      apply Qle_bool_imp_le. vm_compute. reflexivity.
    - exists q. split; [reflexivity|]. split; [exact G|]. split.
      + destruct (is_double_dyadic G D) as (m & k & HD & Hmax).
        exact (dyadic_le_max HD Hmax).
      + intros z Ez. exists z. exact Ez. }
  destruct Hq' as (q' & -> & G & Hk' & Hint).
  unfold add, of_Z.
  assert (Lo : 1 <= inject_Z c + q').
  { setoid_replace 1 with (inject_Z 1 + 0) by reflexivity.
    apply Qplus_le_compat; [rewrite <- Zle_Qle; lia | apply Qlt_le_weak, G]. }
  assert (Nn : 0 <= inject_Z c + q').
  { eapply Qle_trans; [|exact Lo]. discriminate. }
  assert (Hi : inject_Z c + q' < two ^ 1024 - two ^ 970).
  { apply Qlt_le_trans with (two ^ 970 + (two ^ 1024 - two ^ 971)).
    - apply Qplus_lt_le_compat; [|exact Hk'].
      rewrite pow2_Z by discriminate. rewrite <- Zlt_Qlt.
      apply Z.le_lt_trans with 65535%Z; [lia | reflexivity].
    - setoid_replace (two ^ 971) with (two ^ 970 + two ^ 970).
      + setoid_replace (two ^ 970 + (two ^ 1024 - (two ^ 970 + two ^ 970)))
          with (two ^ 1024 - two ^ 970) by ring. apply Qle_refl.
      + change 971%Z with (970 + 1)%Z. rewrite pow2_add.
        change (two ^ 1) with (inject_Z 2). ring. }
  destruct (round_finite Nn Hi) as (s & R).
  exists s. split; [exact R|]. split.
  - apply (@round_ge (inject_Z c + q') 1 s 1 0); [reflexivity | exact Lo | | exact R].
    apply (dyadic_int 1). reflexivity.
  - intros z Ez. destruct (Hint z Ez) as (z' & Ez').
    apply (@round_int (inject_Z c + q') s (c + z') Nn); [|exact R].
    rewrite Ez', inject_Z_plus. reflexivity.
Qed.

(** *** The rating *)

Lemma rating_bounds (p : ProductWithCategory) (q : Q) :
  wf_string (id p) = true -> price p = Fin q -> is_double (Fin q) = true ->
  0 <= q ->
  exists r, rating p = Fin r /\ inject_Z 4 <= r /\ r <= inject_Z 5.
Proof.
  intros W P D H0.
  destruct (seed_finite p W P D H0) as (s & S & Hs1 & _).
  unfold rating. rewrite S. unfold of_Z.
  assert (Hs0 : 0 <= s) by (eapply Qle_trans; [|exact Hs1]; discriminate).
  destruct (@rem_range s (inject_Z 10) Hs0) as (t & -> & Ht0 & Ht1 & _);
    [reflexivity|].
  unfold div. change (Qeq_bool (inject_Z 10) 0) with false. cbv iota.
  assert (U0 : 0 <= t / inject_Z 10).
  { apply Qle_shift_div_l; [reflexivity|]. rewrite Qmult_0_l. exact Ht0. }
  assert (U1 : t / inject_Z 10 <= inject_Z 1).
  { apply Qle_shift_div_r; [reflexivity|]. apply Qlt_le_weak. exact Ht1. }
  destruct (@round_le _ _ 1 0 U0 U1) as (u & -> & Hu0 & Hu1).
  { apply (dyadic_int 1). reflexivity. }
  { reflexivity. }
  unfold add.
  assert (A0 : inject_Z 4 <= inject_Z 4 + u).
  { setoid_replace (inject_Z 4) with (inject_Z 4 + 0) at 1 by ring.
    apply Qplus_le_r, Hu0. }
  assert (A1 : inject_Z 4 + u <= inject_Z 5).
  { setoid_replace (inject_Z 5) with (inject_Z 4 + inject_Z 1) by reflexivity.
    apply Qplus_le_r, Hu1. }
  assert (An : 0 <= inject_Z 4 + u) by (eapply Qle_trans; [|exact A0]; discriminate).
  destruct (@round_le _ _ 5 0 An A1) as (r & R & _ & Hr1).
  { apply (dyadic_int 5). reflexivity. }
  { reflexivity. }
  exists r. split; [exact R|]. split; [|exact Hr1].
  apply (@round_ge (inject_Z 4 + u) (inject_Z 4) r 4 0);
    [reflexivity | exact A0 | | exact R].
  apply (dyadic_int 4). reflexivity.
Qed.


Lemma rating_of_digit_range (d : Z) :
  (0 <= d < 10)%Z ->
  exists r, rating_of_digit d = Fin r /\ inject_Z 4 <= r /\ r < inject_Z 5.
Proof.
  intros H.
  assert (C : (d = 0 \/ d = 1 \/ d = 2 \/ d = 3 \/ d = 4 \/ d = 5 \/ d = 6 \/
               d = 7 \/ d = 8 \/ d = 9)%Z) by lia.
  repeat (destruct C as [C|C]); subst d;
    eexists; (split; [vm_compute; reflexivity|]); split;
    solve [discriminate | reflexivity].
Qed.

Lemma rating_int (p : ProductWithCategory) (q : Q) (z : Z) :
  wf_string (id p) = true -> price p = Fin q -> is_double (Fin q) = true ->
  q == inject_Z z -> 0 <= q ->
  exists r, rating p = Fin r /\ inject_Z 4 <= r /\ r < inject_Z 5.
Proof.
  intros W P D Ez H0.
  destruct (seed_finite p W P D H0) as (s & S & Hs1 & Hint).
  destruct (Hint z Ez) as (sz & Es).
  assert (Hsz : (1 <= sz)%Z).
  { rewrite Es in Hs1. change 1 with (inject_Z 1) in Hs1.
    rewrite <- Zle_Qle in Hs1. exact Hs1. }
  unfold rating. rewrite S.
  rewrite (@rem_int s sz 10) by (lia || exact Es).
  apply rating_of_digit_range. apply Z.mod_pos_bound. lia.
Qed.

(** *** The review count *)

Lemma reviewCount_int (p : ProductWithCategory) (q : Q) (z : Z) :
  wf_string (id p) = true -> price p = Fin q -> q == inject_Z z ->
  0 <= q -> q <= two ^ 1021 ->
  exists n, reviewCount p = of_Z n /\ (5 <= n <= 104)%Z.
Proof.
  intros W P Ez H0 Hk.
  destruct (@seed_range p q 1021 W P H0 Hk)
    as (s & S & Hs1 & Hs2 & Hint); [lia|].
  destruct (Hint z Ez) as (sz & Es).
  assert (Hs0 : 0 <= s) by (eapply Qle_trans; [|exact Hs1]; discriminate).
  unfold reviewCount. rewrite S. unfold mul, of_Z at 1.
  assert (M0 : 0 <= s * inject_Z 3).
  { apply Qmult_le_0_compat; [exact Hs0 | discriminate]. }
  assert (M1 : s * inject_Z 3 <= inject_Z 3 * two ^ 1022).
  { rewrite (Qmult_comm s). apply Qmult_le_l; [reflexivity|]. exact Hs2. }
  destruct (@round_le _ _ 3 1022 M0 M1) as (w & R & Hw0 & _).
  { split; [reflexivity|]. split; [reflexivity | discriminate]. }
  { apply Qlt_le_trans with (inject_Z 4 * two ^ 1022).
    - apply Qmult_lt_r; [apply pow2_pos | reflexivity].
    - change (inject_Z 4) with (two ^ 2). rewrite <- pow2_add. apply Qle_refl. }
  rewrite R.
  destruct (@round_int (s * inject_Z 3) w (sz * 3) M0) as (wz & Ew); [|exact R|].
  { rewrite Es, inject_Z_mult. reflexivity. }
  assert (Hwz : (0 <= wz)%Z).
  { rewrite Ew in Hw0. change 0 with (inject_Z 0) in Hw0.
    rewrite <- Zle_Qle in Hw0. exact Hw0. }
  rewrite (@rem_int w wz 100) by (lia || exact Ew).
  pose proof (Z.mod_pos_bound wz 100 ltac:(lia)) as Hm.
  unfold Math_floor, of_Z at 1. rewrite Qfloor_Z.
  fold (of_Z (wz mod 100)). rewrite add_int by (unfold prec; lia).
  eexists. split; [reflexivity | lia].
Qed.

(** *** The discount *)

Lemma Qeq_bool_false (a b : Q) : ~ a == b -> Qeq_bool a b = false.
Proof.
  intros H. destruct (Qeq_bool a b) eqn:E; [|reflexivity].
  apply Qeq_bool_iff in E. contradiction.
Qed.

Lemma gtb_Fin (a b : Q) : gtb (Fin a) (Fin b) = true <-> b < a.
Proof.
  unfold gtb, ltb. destruct (Qcompare_spec b a) as [E|L|G].
  - split; [discriminate|]. intros H. rewrite E in H. destruct (Qlt_irrefl _ H).
  - tauto.
  - split; [discriminate|]. intros H. destruct (Qlt_irrefl b). eapply Qlt_trans; eauto.
Qed.

Lemma truthy_Fin (a : Q) : truthy (Fin a) = true <-> ~ a == 0.
Proof.
  unfold truthy, is_nan, is_zero. simpl orb.
  destruct (Qeq_bool a 0) eqn:E.
  - apply Qeq_bool_iff in E. split; [discriminate | tauto].
  - split; [|reflexivity]. intros _ H. apply Qeq_bool_iff in H. congruence.
Qed.

Lemma gtb_not_nan (x y : number) : gtb x y = true -> is_nan x = false.
Proof. destruct x, y; simpl; congruence. Qed.

Lemma hasDiscount_iff (p : ProductWithCategory) :
  to_boolean (hasDiscount p) = true <->
  exists o, original_price p = Some o /\ is_zero o = false /\
            gtb o (price p) = true.
Proof.
  unfold hasDiscount. destruct (original_price p) as [o|].
  - destruct (truthy o) eqn:T; simpl.
    + split.
      * intros G. exists o. split; [reflexivity|]. split; [|exact G].
        unfold truthy in T. destruct (is_zero o); [|reflexivity].
        rewrite orb_true_r in T. discriminate.
      * intros (o' & E & _ & G). congruence.
    + rewrite T. split; [discriminate|].
      intros (o' & E & Z0 & G). assert (o' = o) by congruence. subst o'.
      unfold truthy in T. rewrite Z0, (gtb_not_nan _ _ G) in T. discriminate.
  - simpl. split; [discriminate|]. intros (o' & E & _). discriminate.
Qed.



(** *** Numbers with the same value *)


Lemma num_eq_refl (x : number) : num_eq x x.
Proof. destruct x; simpl; auto. apply Qeq_refl. Qed.

Lemma or_else_eq (x y z : number) :
  num_eq x y -> num_eq (or_else x z) (or_else y z).
Proof.
  destruct x as [| | |a], y as [| | |b]; simpl; try tauto;
    try (intros _; apply num_eq_refl).
  intros E. unfold or_else, truthy, is_nan, is_zero. simpl orb.
  assert (C : Qeq_bool a 0 = Qeq_bool b 0).
  { destruct (Qeq_bool b 0) eqn:B.
    - apply Qeq_bool_iff. apply Qeq_bool_iff in B. rewrite E. exact B.
    - destruct (Qeq_bool a 0) eqn:A; [|reflexivity].
      apply Qeq_bool_iff in A. rewrite E in A. apply Qeq_bool_iff in A. congruence. }
  rewrite C. destruct (Qeq_bool b 0); simpl; [apply num_eq_refl | exact E].
Qed.

Lemma add_eq (a x y : number) : num_eq x y -> add a x = add a y.
Proof.
  destruct x as [| | |u], y as [| | |v]; simpl; try tauto.
  intros E. destruct a; try reflexivity. simpl.
  apply round_comp. rewrite E. reflexivity.
Qed.

(** The seed is a function of the first code unit of the id and of the
    value of the price. *)
Lemma seed_eq (p1 p2 : ProductWithCategory) :
  nth_error (id p1) 0 = nth_error (id p2) 0 ->
  num_eq (price p1) (price p2) -> seed p1 = seed p2.
Proof.
  intros H E. unfold seed, charCodeAt. rewrite H.
  apply add_eq, or_else_eq, E.
Qed.

End DerivedValues.

(* ================================================================= *)
(** ** ProductCard.tsx: the rating next to 5.0 *)

Section RatingInterval.

Import JS JSString ProductCard.
Local Open Scope Q_scope.

(** *** The grid of the binary64 values *)

(** An integer is a multiple of every power of two with an exponent that
    is not positive. *)
Lemma int_on_grid (a n : Z) :
  (0 <= n)%Z -> inject_Z a == inject_Z (a * 2 ^ n) * two ^ (- n).
Proof.
  intros H. rewrite inject_Z_mult, <- (pow2_Z H), <- Qmult_assoc, <- pow2_add.
  replace (n + - n)%Z with 0%Z by ring. change (two ^ 0) with 1. ring.
Qed.

Lemma grid_lt (a b e : Z) :
  inject_Z a * two ^ e < inject_Z b * two ^ e -> (a < b)%Z.
Proof.
  intros H. apply Qmult_lt_r in H; [|apply pow2_pos].
  rewrite <- Zlt_Qlt in H. exact H.
Qed.

Lemma grid_le (a b e : Z) :
  inject_Z a * two ^ e <= inject_Z b * two ^ e -> (a <= b)%Z.
Proof.
  intros H. apply Qmult_le_r in H; [|apply pow2_pos].
  rewrite <- Zle_Qle in H. exact H.
Qed.

Lemma grid_mono (a b e : Z) :
  (a <= b)%Z -> inject_Z a * two ^ e <= inject_Z b * two ^ e.
Proof.
  intros H. apply Qmult_le_compat_r; [|apply Qlt_le_weak, pow2_pos].
  rewrite <- Zle_Qle. exact H.
Qed.

(** From [2^j] on, what rounding gives is a multiple of [2^(j - 52)]. *)
Lemma round_pos_grid (x r : Q) (j : Z) :
  two ^ j <= x -> round_pos x = Some r ->
  exists M, r == inject_Z M * two ^ (j - (prec - 1)).
Proof.
  intros Hj.
  assert (Hx : 0 < x) by (eapply Qlt_le_trans; [apply pow2_pos | exact Hj]).
  destruct (ilog2_spec Hx) as [_ G2].
  assert (L : (j < ilog2 x + 1)%Z).
  { apply pow2_lt_inv. eapply Qle_lt_trans; eauto. }
  unfold round_pos. set (e := ulp_exp x).
  assert (He : (j - (prec - 1) <= e)%Z) by (unfold e, ulp_exp; lia).
  destruct (Qle_bool _ _); [discriminate|].
  intros H. apply some_eq in H. subst r.
  exists (rnd (x / two ^ e) * 2 ^ (e - (j - (prec - 1))))%Z.
  rewrite Qred_correct. generalize (rnd (x / two ^ e)). intros m.
  rewrite (pow2_split He), inject_Z_mult. ring.
Qed.

(** The same for a result from [2^j] on, whatever was rounded. *)
Lemma round_grid (x r : Q) (j : Z) :
  0 <= x -> (emin <= j < emax)%Z -> round x = Fin r -> two ^ j <= r ->
  exists M, r == inject_Z M * two ^ (j - (prec - 1)).
Proof.
  intros Hx Hj R Hr.
  destruct (Qlt_le_dec x (two ^ j)) as [Lt|Ge].
  - destruct (@round_le x (two ^ j) 1 j Hx (Qlt_le_weak _ _ Lt))
      as (r' & R' & _ & Hr').
    + apply dyadic_pow2. lia.
    + apply pow2_lt. lia.
    + assert (r' = r) by congruence. subst r'.
      exists (2 ^ (prec - 1))%Z.
      assert (E : r == two ^ j) by (apply Qle_antisym; assumption).
      rewrite E. rewrite <- pow2_Z by (unfold prec; lia).
      rewrite <- pow2_add. replace (prec - 1 + (j - (prec - 1)))%Z with j by ring.
      reflexivity.
  - assert (G : 0 < x) by (eapply Qlt_le_trans; [apply pow2_pos | exact Ge]).
    revert R. unfold round.
    destruct (Qcompare_spec x 0) as [E|L|_].
    + rewrite E in G. discriminate.
    + exfalso. apply (Qlt_irrefl x). eapply Qlt_trans; eauto.
    + destruct (round_pos x) as [r'|] eqn:R; [|discriminate].
      intros H. assert (r' = r) by congruence. subst r'.
      exact (@round_pos_grid x r j Ge R).
Qed.

(** Below the middle of two neighbours rounding gives the lower one, or
    less. *)
Lemma round_below_mid (x : Q) (j g : Z) :
  two ^ j <= x -> x < two ^ (j + 1) -> (emin <= j - (prec - 1))%Z ->
  x < (inject_Z g - (1 # 2)) * two ^ (j - (prec - 1)) ->
  inject_Z (g - 1) * two ^ (j - (prec - 1)) < two ^ emax ->
  exists r, round x = Fin r /\ two ^ j <= r /\
            r <= inject_Z (g - 1) * two ^ (j - (prec - 1)).
Proof.
  intros Lo Hi He Mid Max.
  assert (G : 0 < x) by (eapply Qlt_le_trans; [apply pow2_pos | exact Lo]).
  pose proof (@ilog2_unique x j Lo Hi) as L.
  assert (R : exists r, round x = Fin r /\
                        r <= inject_Z (g - 1) * two ^ (j - (prec - 1))).
  { unfold round.
    destruct (Qcompare_spec x 0) as [E|Ng|_].
    - rewrite E in G. discriminate.
    - exfalso. apply (Qlt_irrefl x). eapply Qlt_trans; eauto.
    - unfold round_pos, ulp_exp. rewrite L.
      replace (Z.max (j - (prec - 1)) emin) with (j - (prec - 1))%Z by lia.
      set (e := (j - (prec - 1))%Z) in *.
      assert (Rn : (rnd (x / two ^ e) <= g - 1)%Z).
      { apply rnd_lt_half. apply Qlt_shift_div_r; [apply pow2_pos | exact Mid]. }
      assert (C : inject_Z (rnd (x / two ^ e)) * two ^ e
                  <= inject_Z (g - 1) * two ^ e) by (apply grid_mono, Rn).
      destruct (Qle_bool _ _) eqn:B.
      + exfalso. apply Qle_bool_iff in B.
        apply (Qlt_irrefl (two ^ emax)).
        eapply Qle_lt_trans; [exact B|]. eapply Qle_lt_trans; eauto.
      + eexists. split; [reflexivity|]. rewrite Qred_correct. exact C. }
  destruct R as (r & R & Hr). exists r. split; [exact R|]. split; [|exact Hr].
  apply (@round_ge x (two ^ j) r 1 j); [apply pow2_pos | exact Lo | | exact R].
  apply dyadic_pow2. unfold prec in He. lia.
Qed.

(** *** The rating next to 5.0 *)

(** The first operand of the seed is the first code unit of the id when
    there is one that is not 0. *)
Lemma first_code_at (s : js_string) (c : N) :
  nth_error s 0 = Some c -> c <> 0%N ->
  or_else (charCodeAt s 0) (of_Z 1) = of_Z (Z.of_N c).
Proof.
  intros H N0. unfold charCodeAt. rewrite H.
  unfold or_else, truthy, of_Z, is_nan, is_zero. simpl orb.
  destruct (Qeq_bool (inject_Z (Z.of_N c)) 0) eqn:E; [|reflexivity].
  apply Qeq_bool_iff in E. unfold Qeq in E. simpl in E. lia.
Qed.


(** The seed is the rounding of an exact sum of a code unit, or 1, and a
    positive price, or 1. *)
Lemma seed_sum (p : ProductWithCategory) (q : Q) :
  wf_string (id p) = true -> price p = Fin q -> 0 <= q ->
  exists (c : Z) (q' : Q),
    seed p = round (inject_Z c + q') /\ (1 <= c)%Z /\ 0 < q' /\
    (forall n, nth_error (id p) 0 = Some n -> n <> 0%N -> c = Z.of_N n).
Proof.
  intros W P H0. unfold seed. rewrite P.
  destruct (first_code (id p) W) as (c & C & Hc).
  assert (Hq' : exists q', or_else (Fin q) (of_Z 1) = Fin q' /\ 0 < q').
  { destruct (price_or_one H0) as [[E ->]|[G ->]].
    - exists (inject_Z 1). split; reflexivity.
    - exists q. split; [reflexivity | exact G]. }
  destruct Hq' as (q' & -> & G).
  exists c, q'. split; [rewrite C; reflexivity|]. split; [lia|].
  split; [exact G|].
  intros n Hn N0. rewrite (first_code_at _ Hn N0) in C.
  unfold of_Z in C. inversion C. reflexivity.
Qed.

(** A remainder by 10 of a multiple of [2^-n] is one. *)
Lemma rem_on_grid (s t : Q) (k M n : Z) :
  (0 <= n)%Z -> t == s - inject_Z 10 * inject_Z k ->
  s == inject_Z M * two ^ (- n) ->
  t == inject_Z (M - 10 * k * 2 ^ n) * two ^ (- n).
Proof.
  intros Hn Et Es. rewrite Et, Es.
  rewrite <- inject_Z_mult, (int_on_grid (10 * k) Hn).
  unfold Zminus. rewrite inject_Z_plus, inject_Z_opp. ring.
Qed.

(** A remainder below 8 gives a rating below 4.875. *)
Lemma rating_of_rem_small (t : Q) :
  0 <= t -> t < inject_Z 8 ->
  exists r, add (of_Z 4) (div (Fin t) (of_Z 10)) = Fin r /\ r < inject_Z 5.
Proof.
  intros Ht0 Ht1.
  unfold of_Z, div. change (Qeq_bool (inject_Z 10) 0) with false. cbv iota.
  assert (U0 : 0 <= t / inject_Z 10).
  { apply Qle_shift_div_l; [reflexivity|]. rewrite Qmult_0_l. exact Ht0. }
  assert (U1 : t / inject_Z 10 <= inject_Z 7 * two ^ (-3)).
  { apply Qle_shift_div_r; [reflexivity|]. apply Qlt_le_weak.
    eapply Qlt_le_trans; [exact Ht1|]. apply Qle_bool_imp_le. reflexivity. }
  destruct (@round_le _ _ 7 (-3) U0 U1) as (u & -> & Hu0 & Hu1).
  { split; [reflexivity|]. split; [reflexivity | discriminate]. }
  { reflexivity. }
  unfold add.
  assert (A0 : 0 <= inject_Z 4 + u).
  { apply Qle_trans with (inject_Z 4 + 0); [discriminate|].
    apply Qplus_le_r, Hu0. }
  assert (A1 : inject_Z 4 + u <= inject_Z 39 * two ^ (-3)).
  { apply Qle_trans with (inject_Z 4 + inject_Z 7 * two ^ (-3)).
    - apply Qplus_le_r, Hu1.
    - apply Qle_bool_imp_le. reflexivity. }
  destruct (@round_le _ _ 39 (-3) A0 A1) as (r & R & _ & Hr1).
  { split; [reflexivity|]. split; [reflexivity | discriminate]. }
  { reflexivity. }
  exists r. split; [exact R|].
  eapply Qle_lt_trans; [exact Hr1|]. reflexivity.
Qed.

(** A remainder from 8 to the third binary64 value below 10 gives a rating
    below 5. *)
Lemma rating_of_rem_below (t : Q) :
  inject_Z 8 <= t -> t <= inject_Z (10 * 2 ^ 49 - 3) * two ^ (-49) ->
  exists r, add (of_Z 4) (div (Fin t) (of_Z 10)) = Fin r /\ r < inject_Z 5.
Proof.
  intros Ht0 Ht1.
  unfold of_Z, div. change (Qeq_bool (inject_Z 10) 0) with false. cbv iota.
  assert (D : forall a b, a <= b -> a / inject_Z 10 <= b / inject_Z 10).
  { intros a b H. unfold Qdiv. apply Qmult_le_compat_r; [exact H | discriminate]. }
  destruct (@round_below_mid (t / inject_Z 10) (-1) (2 ^ 53 - 4))
    as (u & -> & Hu0 & Hu1).
  - eapply Qle_trans; [|apply D, Ht0]. apply Qle_bool_imp_le. reflexivity.
  - eapply Qle_lt_trans; [apply D, Ht1|]. reflexivity.
  - discriminate.
  - eapply Qle_lt_trans; [apply D, Ht1|]. reflexivity.
  - reflexivity.
  - unfold add.
    destruct (@round_below_mid (inject_Z 4 + u) 2 (5 * 2 ^ 50))
      as (r & R & _ & Hr1).
    + apply Qle_trans with (inject_Z 4 + 0); [discriminate|].
      apply Qplus_le_r. eapply Qle_trans; [|exact Hu0]. discriminate.
    + apply Qle_lt_trans
        with (inject_Z 4 + inject_Z (2 ^ 53 - 4 - 1) * two ^ (-1 - (prec - 1))).
      * apply Qplus_le_r, Hu1.
      * reflexivity.
    + discriminate.
    + apply Qle_lt_trans
        with (inject_Z 4 + inject_Z (2 ^ 53 - 4 - 1) * two ^ (-1 - (prec - 1))).
      * apply Qplus_le_r, Hu1.
      * reflexivity.
    + reflexivity.
    + exists r. split; [exact R|].
      eapply Qle_lt_trans; [exact Hr1|]. reflexivity.
Qed.

(** The two binary64 values next below 10 give the rating 5. *)
Lemma rating_of_rem_top (t : Q) (T : Z) :
  t == inject_Z T * two ^ (-49) -> (10 * 2 ^ 49 - 2 <= T < 10 * 2 ^ 49)%Z ->
  exists r, add (of_Z 4) (div (Fin t) (of_Z 10)) = Fin r /\ r == inject_Z 5.
Proof.
  intros Et HT.
  unfold of_Z, div. change (Qeq_bool (inject_Z 10) 0) with false. cbv iota.
  assert (C : (T = 10 * 2 ^ 49 - 2 \/ T = 10 * 2 ^ 49 - 1)%Z) by lia.
  assert (Q10 : forall a b, a == b -> a / inject_Z 10 == b / inject_Z 10).
  { intros a b H. rewrite H. reflexivity. }
  destruct C as [-> | ->]; rewrite (round_comp (Q10 _ _ Et));
    eexists; (split; [vm_compute; reflexivity | reflexivity]).
Qed.


(** The rating is 5 exactly when the remainder of the seed is one of the
    two binary64 values next below 10, which takes a seed below 32 that is
    not an integer. *)
Lemma rating_sharp (p : ProductWithCategory) (q : Q) :
  wf_string (id p) = true -> price p = Fin q -> is_double (Fin q) = true ->
  0 <= q ->
  exists s t r,
    seed p = Fin s /\ rem (seed p) (of_Z 10) = Fin t /\ rating p = Fin r /\
    (t < inject_Z 10 - two ^ (-48) -> r < inject_Z 5) /\
    (inject_Z 10 - two ^ (-48) <= t -> r == inject_Z 5) /\
    (inject_Z 32 <= s -> t < inject_Z 10 - two ^ (-48)) /\
    ((exists z, q == inject_Z z) -> t < inject_Z 10 - two ^ (-48)) /\
    (forall c, nth_error (id p) 0 = Some c -> (32 <= c)%N -> inject_Z 32 <= s).
Proof.
  intros W P D H0.
  destruct (seed_finite p W P D H0) as (s & S & Hs1 & Hint).
  destruct (seed_sum p W P H0) as (c & q' & Sum & Hc & Hq' & Hn).
  rewrite Sum in S.
  assert (Nn : 0 <= inject_Z c + q').
  { apply Qle_trans with (inject_Z c + 0).
    - rewrite Qplus_0_r. apply inject_Z_nonneg. lia.
    - apply Qplus_le_r, Qlt_le_weak, Hq'. }
  assert (Hs0 : 0 <= s) by (eapply Qle_trans; [|exact Hs1]; discriminate).
  assert (G3 : inject_Z 8 <= s -> exists M, s == inject_Z M * two ^ (-49)).
  { intros H. apply (@round_grid (inject_Z c + q') s 3 Nn); [|exact S|exact H].
    split; discriminate || reflexivity. }
  assert (G5 : inject_Z 32 <= s -> exists M, s == inject_Z M * two ^ (-47)).
  { intros H. apply (@round_grid (inject_Z c + q') s 5 Nn); [|exact S|exact H].
    split; discriminate || reflexivity. }
  destruct (@rem_range s (inject_Z 10) Hs0) as (t & Rm & Ht0 & Ht1 & Et);
    [reflexivity|].
  set (k := Qfloor (s / inject_Z 10)) in *.
  assert (Hk : (0 <= k)%Z).
  { unfold k. change 0%Z with (Qfloor 0). apply Qfloor_resp_le.
    apply Qle_shift_div_l; [reflexivity|]. rewrite Qmult_0_l. exact Hs0. }
  assert (Hts : t <= s).
  { rewrite Et. apply Qle_trans with (s - 0).
    - apply Qplus_le_r, Qopp_le_compat.
      apply Qmult_le_0_compat; [discriminate | apply inject_Z_nonneg, Hk].
    - unfold Qminus. setoid_replace (s + - 0) with s by ring. apply Qle_refl. }
  assert (Rt : rating p = add (of_Z 4) (div (Fin t) (of_Z 10))).
  { unfold rating. rewrite Sum, S. unfold of_Z at 2. rewrite Rm. reflexivity. }
  (* the remainder on the grid of the values from 8 on *)
  assert (T3 : inject_Z 8 <= t ->
               exists T, t == inject_Z T * two ^ (-49) /\ (T < 10 * 2 ^ 49)%Z).
  { intros H8. destruct G3 as (M & EM); [eapply Qle_trans; eauto|].
    pose proof (@rem_on_grid s t k M 49 ltac:(lia) Et EM) as ET.
    eexists. split; [exact ET|].
    apply (@grid_lt _ _ (-49)). rewrite <- ET.
    eapply Qlt_le_trans; [exact Ht1|]. apply Qle_bool_imp_le. reflexivity. }
  assert (E48 : inject_Z 10 - two ^ (-48)
                == inject_Z (10 * 2 ^ 49 - 2) * two ^ (-49)) by reflexivity.
  destruct (rating_bounds p W P D H0) as (r & R & _ & _).
  exists s, t, r. rewrite Sum, S.
  split; [reflexivity|]. split; [exact Rm|]. split; [exact R|].
  assert (Below : t < inject_Z 10 - two ^ (-48) -> r < inject_Z 5).
  { intros Lt. rewrite Rt in R.
    assert (X : exists r', add (of_Z 4) (div (Fin t) (of_Z 10)) = Fin r' /\
                           r' < inject_Z 5).
    { destruct (Qlt_le_dec t (inject_Z 8)) as [L8|G8].
      - apply rating_of_rem_small; assumption.
      - apply rating_of_rem_below; [exact G8|].
        destruct (T3 G8) as (T & ET & _).
        rewrite E48, ET in Lt. apply grid_lt in Lt.
        rewrite ET. apply grid_mono. lia. }
    destruct X as (r' & R' & Hr'). assert (r' = r) by congruence. subst r'.
    exact Hr'. }
  split; [exact Below|]. split; [|split; [|split]].
  - intros Ge. rewrite Rt in R.
    assert (G8 : inject_Z 8 <= t).
    { eapply Qle_trans; [|exact Ge]. apply Qle_bool_imp_le. reflexivity. }
    destruct (T3 G8) as (T & ET & HT).
    rewrite E48, ET in Ge. apply grid_le in Ge.
    destruct (@rating_of_rem_top t T ET) as (r' & R' & Hr'); [lia|].
    assert (r' = r) by congruence. subst r'. exact Hr'.
  - intros H32. destruct (G5 H32) as (M & EM).
    pose proof (@rem_on_grid s t k M 47 ltac:(lia) Et EM) as ET.
    assert (HT : (M - 10 * k * 2 ^ 47 < 10 * 2 ^ 47)%Z).
    { apply (@grid_lt _ _ (-47)). rewrite <- ET.
      eapply Qlt_le_trans; [exact Ht1|]. apply Qle_bool_imp_le. reflexivity. }
    rewrite ET.
    apply Qle_lt_trans with (inject_Z (10 * 2 ^ 47 - 1) * two ^ (-47)).
    + apply grid_mono. lia.
    + reflexivity.
  - intros (z & Ez). destruct (Hint z Ez) as (sz & Es).
    assert (ET : t == inject_Z (sz - 10 * k)).
    { rewrite Et, Es. unfold Zminus.
      rewrite inject_Z_plus, inject_Z_opp, inject_Z_mult. reflexivity. }
    assert (HT : (sz - 10 * k < 10)%Z).
    { rewrite Zlt_Qlt, <- ET. exact Ht1. }
    rewrite ET. apply Qle_lt_trans with (inject_Z 9).
    + rewrite <- Zle_Qle. lia.
    + reflexivity.
  - intros n In Hn32.
    assert (N0 : n <> 0%N) by lia.
    rewrite (Hn n In N0) in S.
    apply (@round_ge (inject_Z (Z.of_N n) + q') (inject_Z 32) s 32 0);
      [reflexivity | | apply dyadic_int; reflexivity | exact S].
    apply Qle_trans with (inject_Z (Z.of_N n) + 0).
    + rewrite Qplus_0_r, <- Zle_Qle. lia.
    + apply Qplus_le_r, Qlt_le_weak, Hq'.
Qed.

End RatingInterval.

(* ================================================================= *)
(** ** ProductCard.tsx: the add-to-cart button over time *)

Section AddToCart.

Import ProductCard.


Lemma step_window (t0 : N) (s : card) (e : event) :
  is_success e = false -> window_inv t0 s -> (t0 <= now s)%N ->
  window_inv t0 (step s e) /\
  now (step s e) = (now s + match e with Elapse dt => dt | _ => 0 end)%N.
Proof.
  intros NS [HJ HT] Ht0. destruct e as [| | |b|dt]; try discriminate.
  - unfold step. destruct (disabled s); (split; [split; assumption | simpl; lia]).
  - split; [split; assumption | simpl; lia].
  - split; [split; assumption | simpl; lia].
  - unfold step, advance, window_inv. simpl now. simpl justAdded. simpl timers.
    rewrite HT, HJ. split; [|reflexivity].
    destruct (N.ltb_spec (now s) (t0 + 2000)) as [L|G].
    + simpl. rewrite orb_false_r.
      destruct (N.leb_spec (t0 + 2000) (now s + dt)) as [A|A]; simpl.
      * destruct (N.ltb_spec (now s + dt) (t0 + 2000)); [lia | tauto].
      * destruct (N.ltb_spec (now s + dt) (t0 + 2000)); [tauto | lia].
    + simpl. destruct (N.ltb_spec (now s + dt) (t0 + 2000)); [lia | tauto].
Qed.

Lemma run_window (t0 : N) (es : list event) :
  forall s, no_success es = true -> window_inv t0 s -> (t0 <= now s)%N ->
  window_inv t0 (run s es) /\ now (run s es) = (now s + elapsed es)%N.
Proof.
  induction es as [|e es IH]; intros s NS Inv Ht0.
  - simpl. split; [exact Inv | lia].
  - simpl in NS. apply andb_prop in NS. destruct NS as [Ne NS].
    apply negb_true_iff in Ne.
    destruct (step_window e Ne Inv Ht0) as [Inv1 N1].
    destruct (IH (step s e) NS Inv1) as [Inv2 N2]; [lia|].
    unfold run in *. simpl fold_left. split; [exact Inv2|].
    rewrite N2, N1. destruct e; simpl; lia.
Qed.

Lemma onSuccess_window (s : card) :
  timers s = [] -> window_inv (now s) (onSuccess s).
Proof.
  intros T. unfold window_inv, onSuccess. simpl. rewrite T.
  destruct (N.ltb_spec (now s) (now s + 2000)); [split; reflexivity | lia].
Qed.


(** Time does not go back, and a scheduled callback stays pending until
    it is due: nothing cancels it. *)
Lemma step_now (s : card) (e : event) : (now s <= now (step s e))%N.
Proof.
  destruct e; simpl; try lia.
  - destruct (disabled s); simpl; lia.
  - destruct (isPending s); simpl; lia.
Qed.

Lemma step_timers (s : card) (e : event) (t : N) :
  In t (timers s) -> (now (step s e) < t)%N -> In t (timers (step s e)).
Proof.
  intros I L. destruct e; simpl in *; try exact I.
  - destruct (disabled s); exact I.
  - destruct (isPending s); [|exact I]. simpl. apply in_or_app. left. exact I.
  - apply filter_In. split; [exact I|].
    destruct (N.leb_spec t (now s + dt)); [lia | reflexivity].
Qed.

Lemma run_now (es : list event) :
  forall s, (now s <= now (run s es))%N.
Proof.
  induction es as [|e es IH]; intros s; [apply N.le_refl|].
  unfold run in *. simpl. pose proof (step_now s e). pose proof (IH (step s e)).
  lia.
Qed.

Lemma run_timers (es : list event) (t : N) :
  forall s, In t (timers s) -> (now (run s es) < t)%N ->
            In t (timers (run s es)).
Proof.
  induction es as [|e es IH]; intros s I L; [exact I|].
  unfold run in *. simpl in *. apply IH; [|exact L].
  apply step_timers; [exact I|].
  pose proof (run_now es (step s e)). unfold run in *. lia.
Qed.

End AddToCart.

(* ================================================================= *)
(** ** Home.tsx: the category filter and the render paths *)

Section HomeProperties.

Import Home.

Lemma string_eqb_eq (a b : js_string) : string_eqb a b = true <-> a = b.
Proof.
  revert b. induction a as [|x a IH]; intros [|y b]; simpl.
  - split; reflexivity.
  - split; discriminate.
  - split; discriminate.
  - rewrite andb_true_iff, N.eqb_eq, IH. split.
    + intros [-> ->]. reflexivity.
    + intros E. injection E as -> ->. split; reflexivity.
Qed.

Lemma strict_eq_opt_eq (x : option js_string) (b : js_string) :
  strict_eq_opt x b = true <-> x = Some b.
Proof.
  destruct x as [a|]; simpl.
  - rewrite string_eqb_eq. split; congruence.
  - split; discriminate.
Qed.

Lemma with_index_fst (A : Type) (xs : list A) : map fst (with_index xs) = xs.
Proof.
  unfold with_index. generalize 0%nat.
  induction xs as [|x xs IH]; intros n; simpl; [reflexivity|].
  rewrite IH. reflexivity.
Qed.

Lemma placeholders_length (n : nat) : length (placeholders n) = n.
Proof. unfold placeholders. rewrite length_map, length_seq. reflexivity. Qed.

(** C1. For every loaded product list and every selected category name,
    the derived list is the list of the products whose category name is
    the selection, code unit for code unit, in the order of the load; for
    the selection "All" it is the loaded list itself. *)
Theorem filteredProducts_exact (ps : list ProductWithCategory)
    (sel : js_string) :
  (sel = All -> filteredProducts (Some ps) sel = ps) /\
  (sel <> All -> filteredProducts (Some ps) sel = spec_filter sel ps).
Proof.
  unfold filteredProducts. destruct (string_eqb sel All) eqn:E.
  - apply string_eqb_eq in E. split; [reflexivity | contradiction].
  - split.
    + intros ->. rewrite (proj2 (string_eqb_eq All All) eq_refl) in E.
      discriminate.
    + intros _. unfold spec_filter. apply filter_ext. intros p.
      destruct (category_is_dec sel p) as [C|C]; unfold category_is in C.
      * apply strict_eq_opt_eq, C.
      * destruct (strict_eq_opt _ sel) eqn:S; [|reflexivity].
        apply strict_eq_opt_eq in S. contradiction.
Qed.

(** Scenario 3: "Shoes" keeps the shoes only (not the product filed under
    "shoes"), "All" keeps everything. *)
Example filter_shoes :
  filteredProducts (Some Examples.catalog) (lit "Shoes"%string)
  = [Examples.shoes1] /\
  filteredProducts (Some Examples.catalog) All = Examples.catalog.
Proof. split; reflexivity. Qed.

(** C5, counterexample.  The catalog of scenario 3 has loaded and all of
    it is selected, so the filtered list is not empty; the load of the
    categories has failed, and the grid area shows the error message of
    the categories: neither the grid nor the message for an empty
    category, and no card. *)
Lemma categories_failure_hides_loaded_grid :
  let products := Examples.products_loaded in
  let view := Home.Home products Examples.categories_failed All in
  isLoading products = false /\ error products = None /\
  data products = Some Examples.catalog /\
  filteredProducts (data products) All = Examples.catalog /\
  grid view = ErrorMessage categories_failure /\
  grid view <> Grid (with_index Examples.catalog) /\
  grid view <> EmptyMessage /\
  product_cards (grid view) = [].
Proof. repeat split; try reflexivity; discriminate. Qed.

(** C5, as the code has it.  The grid area takes exactly one of its
    paths.  While the products load it is the skeleton of 8 placeholders
    (and the navigation shows 6 while the categories load); when the load
    of the products has failed it is one error message, with no
    placeholder and no card; when the products have loaded and the load of
    the categories has failed it is one error message too, that of the
    categories, with no placeholder and no card; when both loads have
    succeeded it is the message for an empty category if the filtered list
    is empty and else one card per filtered product, in order. *)
Theorem render_paths (products : QueryResult (list ProductWithCategory))
    (cats : QueryResult (list Category)) (activeCategory : js_string) :
  let view := Home.Home products cats activeCategory in
  let filtered := filteredProducts (data products) activeCategory in
  (isLoading products = true ->
     grid view = GridSkeleton ProductGridSkeleton /\
     skeleton_cells (grid view) = 8%nat /\
     error_messages (grid view) = 0%nat /\ product_cards (grid view) = []) /\
  (isLoading cats = true ->
     exists cells, nav view = NavSkeleton cells /\ length cells = 6%nat) /\
  (isLoading products = false ->
     forall message, error products = Some message ->
     grid view = ErrorMessage message /\
     error_messages (grid view) = 1%nat /\
     skeleton_cells (grid view) = 0%nat /\ product_cards (grid view) = []) /\
  (isLoading products = false -> error products = None ->
     forall message, error cats = Some message ->
     grid view = ErrorMessage message /\
     error_messages (grid view) = 1%nat /\
     skeleton_cells (grid view) = 0%nat /\ product_cards (grid view) = []) /\
  (isLoading products = false -> error products = None ->
     error cats = None ->
     skeleton_cells (grid view) = 0%nat /\
     error_messages (grid view) = 0%nat /\
     product_cards (grid view) = filtered /\
     (filtered = [] -> grid view = EmptyMessage) /\
     (filtered <> [] -> grid view = Grid (with_index filtered))).
Proof.
  simpl. unfold renderProductGrid, CategoriesNav.
  split; [intros L; rewrite L; repeat split; reflexivity|].
  split.
  { intros L. rewrite L. eexists. split; [reflexivity|].
    apply placeholders_length. }
  split; [intros L message E; rewrite L, E; repeat split; reflexivity|].
  split; [intros L E message E2; rewrite L, E, E2; repeat split; reflexivity|].
  intros L E E2. rewrite L, E, E2.
  destruct (filteredProducts (data products) activeCategory) as [|p ps] eqn:F.
  - repeat split; try reflexivity. intros N. contradiction.
  - split; [reflexivity|]. split; [reflexivity|].
    split; [apply (with_index_fst (p :: ps))|].
    split; [discriminate | reflexivity].
Qed.

End HomeProperties.

(* ================================================================= *)
(** ** ProductCard.tsx: the properties of the card *)

Section CardProperties.

Import JS ProductCard.
Local Open Scope Q_scope.

(** *** The model against the hardware

    On the inputs of the examples below the rounding defined here gives
    the binary64 values the floating-point unit computes. *)
Example hardware_operations :
  forallb (fun c => same_float (to_float (fst c)) (snd c))
          Examples.hardware_cases = true.
Proof. vm_compute. reflexivity. Qed.

Example hardware_discount :
  to_float (mul (div (sub (of_Z 100) (Fin (85 # 2))) (of_Z 100)) (of_Z 100))
  = ((100 - 42.5) / 100 * 100)%float /\
  to_float (div (mul (of_Z 100) (sub (of_Z 100) (Fin (85 # 2)))) (of_Z 100))
  = (100 * (100 - 42.5) / 100)%float.
Proof. split; vm_compute; reflexivity. Qed.

Example hardware_rating :
  to_float (rating Examples.p_negative) = (4 + (97 + -100) / 10)%float /\
  to_float (price Examples.p_fraction) = 0x1.1ffffffffffffp+3%float /\
  to_float (rating Examples.p_fraction)
  = (4 + (1 + 0x1.1ffffffffffffp+3) / 10)%float /\
  to_float (mul (seed Examples.p_huge) (of_Z 3))
  = ((97 + 0x1p+1023) * 3)%float.
Proof. repeat split; vm_compute; reflexivity. Qed.

(** *** Discount *)

Lemma jsx_and_element (A : Type) (v : value) (a : A) :
  to_boolean v = true <-> jsx_and v a = Element a.
Proof.
  destruct v as [|b|n]; simpl.
  - split; discriminate.
  - destruct b; split; (reflexivity || discriminate).
  - destruct (truthy n); split; (reflexivity || discriminate).
Qed.



(** Scenarios 1 and 2 of the specification. *)
Example discount_scenarios :
  hasDiscount Examples.p1 = VBool false /\
  discount_badge Examples.p1 = Nothing /\
  struck_price Examples.p1 = Nothing /\
  hasDiscount Examples.p2 = VBool true /\
  discount_badge Examples.p2 = Element (of_Z 20).
Proof. repeat split; vm_compute; reflexivity. Qed.

(** *** Rating and review count *)

(** C7. Two renders of products with the same id and the same price give
    the same rating and the same review count. *)
Theorem rating_deterministic (p1 p2 : ProductWithCategory) :
  id p1 = id p2 -> num_eq (price p1) (price p2) ->
  rating p1 = rating p2 /\ reviewCount p1 = reviewCount p2.
Proof.
  intros I E. assert (S : seed p1 = seed p2).
  { apply seed_eq; [rewrite I; reflexivity | exact E]. }
  unfold rating, reviewCount. rewrite S. split; reflexivity.
Qed.

Lemma rating_deterministic_witness :
  rating Examples.p2 = rating Examples.p_again /\
  reviewCount Examples.p2 = reviewCount Examples.p_again.
Proof.
  apply (@rating_deterministic Examples.p2 Examples.p_again).
  - reflexivity.
  - reflexivity.
Defined.

(** C9. The rating and the review count depend on the id through its
    first code unit only: two products of the same price whose ids start
    with the same code unit get the same rating and review count; for the
    empty id the seed is computed with 1 in place of the code unit. *)
Theorem rating_depends_on_first_code_unit (p1 p2 : ProductWithCategory) :
  nth_error (id p1) 0 = nth_error (id p2) 0 ->
  num_eq (price p1) (price p2) ->
  (rating p1 = rating p2 /\ reviewCount p1 = reviewCount p2) /\
  (id p1 = [] -> seed p1 = add (of_Z 1) (or_else (price p1) (of_Z 1))).
Proof.
  intros I E. split.
  - assert (S : seed p1 = seed p2) by (apply seed_eq; assumption).
    unfold rating, reviewCount. rewrite S. split; reflexivity.
  - intros N. unfold seed. rewrite N. reflexivity.
Qed.

Lemma rating_depends_on_first_code_unit_witness :
  (rating Examples.p2 = rating Examples.p_same_initial /\
   reviewCount Examples.p2 = reviewCount Examples.p_same_initial) /\
  (id Examples.p2 = [] ->
   seed Examples.p2 = add (of_Z 1) (or_else (price Examples.p2) (of_Z 1))).
Proof.
  apply (@rating_depends_on_first_code_unit Examples.p2 Examples.p_same_initial).
  - reflexivity.
  - reflexivity.
Defined.

Lemma wf_product_id (p : ProductWithCategory) :
  wf_product p = true -> wf_string (id p) = true.
Proof.
  unfold wf_product. intros H. apply andb_prop in H. destruct H as [H _].
  apply andb_prop in H. tauto.
Qed.

Lemma wf_product_price (p : ProductWithCategory) :
  wf_product p = true -> is_double (price p) = true.
Proof.
  unfold wf_product. intros H. apply andb_prop in H. destruct H as [H _].
  apply andb_prop in H. tauto.
Qed.

(** From the seed 32 on the rating stays one binary64 value below 5.0,
    and reaches it: with the id " " and the price [8 - 2^-47] the
    remainder is [10 - 2^-47] and the rating [5 - 2^-50]. *)
Example rating_next_below_five :
  wf_product Examples.p_below_40 = true /\
  num_eq (seed Examples.p_below_40) (Fin (inject_Z 40 - two ^ (-47))) /\
  num_eq (rating Examples.p_below_40) (Fin (inject_Z 5 - two ^ (-50))).
Proof.
  split; [vm_compute; reflexivity|].
  split; vm_compute; reflexivity.
Qed.

(** C8, counterexample.  With the id "a" and the price -100 the seed is
    -3, the remainder -3 and the rating 3.7; with the empty id and the
    price 8.9999999999999982 the seed is 9.9999999999999982 and the sum
    [4 + 0.99999999999999978] rounds to exactly 5. *)
Lemma rating_outside_half_open_interval :
  (wf_product Examples.p_negative = true /\
   ltb (rating Examples.p_negative) (of_Z 4) = true) /\
  (wf_product Examples.p_fraction = true /\
   rating Examples.p_fraction = of_Z 5).
Proof. repeat split; vm_compute; reflexivity. Qed.

(** C8, as the code has it.  For a product whose price is a finite
    binary64 value that is not negative, the rating is a Number in the
    closed interval from 4.0 to 5.0.  It is below 5.0 exactly when the
    remainder [seed % 10] is below [10 - 2^-48], that is, unless the
    remainder is one of the two binary64 values next below 10; then the
    rating is 5.0.  The rating is below 5.0 whenever the seed is at least
    32, so for every such price when the id starts with a code unit from
    32 on, and whenever the price is an integer. *)
Theorem rating_range (p : ProductWithCategory) (q : Q) :
  wf_product p = true -> price p = Fin q -> 0 <= q ->
  exists s t r,
    seed p = Fin s /\ rem (seed p) (of_Z 10) = Fin t /\ rating p = Fin r /\
    inject_Z 4 <= r /\ r <= inject_Z 5 /\
    (r < inject_Z 5 <-> t < inject_Z 10 - two ^ (-48)) /\
    (inject_Z 32 <= s -> r < inject_Z 5) /\
    (forall c, nth_error (id p) 0 = Some c -> (32 <= c)%N ->
               r < inject_Z 5) /\
    ((exists z, q == inject_Z z) -> r < inject_Z 5).
Proof.
  intros W P H0. pose proof (wf_product_price p W) as D. rewrite P in D.
  apply wf_product_id in W.
  destruct (rating_bounds p W P D H0) as (r & R & Lo & Hi).
  destruct (rating_sharp p W P D H0)
    as (s & t & r' & S & T & R' & Below & Top & H32 & Hint & Hc).
  assert (r' = r) by congruence. subst r'.
  exists s, t, r.
  split; [exact S|]. split; [exact T|]. split; [exact R|].
  split; [exact Lo|]. split; [exact Hi|]. split; [|split; [|split]].
  - split; [|exact Below]. intros Lt.
    destruct (Qlt_le_dec t (inject_Z 10 - two ^ (-48))) as [L|G]; [exact L|].
    exfalso. rewrite (Top G) in Lt. discriminate.
  - intros H. apply Below, H32, H.
  - intros c In C32. apply Below, H32, (Hc c In C32).
  - intros Z. apply Below, Hint, Z.
Qed.

Lemma rating_range_witness :
  exists s t r,
    seed Examples.p_42_50 = Fin s /\
    rem (seed Examples.p_42_50) (of_Z 10) = Fin t /\
    rating Examples.p_42_50 = Fin r /\
    inject_Z 4 <= r /\ r <= inject_Z 5 /\
    (r < inject_Z 5 <-> t < inject_Z 10 - two ^ (-48)) /\
    (inject_Z 32 <= s -> r < inject_Z 5) /\
    (forall c, nth_error (id Examples.p_42_50) 0 = Some c -> (32 <= c)%N ->
               r < inject_Z 5) /\
    ((exists z, (85 # 2) == inject_Z z) -> r < inject_Z 5).
Proof.
  apply (@rating_range Examples.p_42_50 (85 # 2)).
  - vm_compute. reflexivity.
  - reflexivity.
  - unfold Qle. simpl. lia.
Defined.

(** C10, counterexample.  The price 2^1023 is a nonnegative integer and a
    binary64 value; the seed times 3 overflows to Infinity, the remainder
    is NaN and so is the review count. *)
Lemma reviewCount_overflow :
  wf_product Examples.p_huge = true /\
  price Examples.p_huge = of_Z (2 ^ 1023) /\
  mul (seed Examples.p_huge) (of_Z 3) = PInf /\
  reviewCount Examples.p_huge = NaN.
Proof. repeat split; vm_compute; reflexivity. Qed.

(** C10, as the code has it.  For a product whose price is a nonnegative
    integer not above 2^1021, the review count is an integer from 5 to
    104. *)
Theorem reviewCount_range (p : ProductWithCategory) (q : Q) (z : Z) :
  wf_product p = true -> price p = Fin q -> q == inject_Z z ->
  0 <= q -> q <= two ^ 1021 ->
  exists n, reviewCount p = of_Z n /\ (5 <= n <= 104)%Z.
Proof.
  intros W P Ez H0 H1. apply wf_product_id in W.
  exact (reviewCount_int p W P Ez H0 H1).
Qed.

Lemma reviewCount_range_witness :
  exists n, reviewCount Examples.p2 = of_Z n /\ (5 <= n <= 104)%Z.
Proof.
  apply (@reviewCount_range Examples.p2 (inject_Z 80) 80).
  - vm_compute. reflexivity.
  - reflexivity.
  - reflexivity.
  - unfold Qle. simpl. lia.
  - apply Qle_bool_imp_le. vm_compute. reflexivity.
Defined.

(** The values for scenario 2: "p" is 112, the seed 192. *)
Example rating_p2 :
  seed Examples.p2 = of_Z 192 /\
  to_float (rating Examples.p2) = 0x1.0cccccccccccdp+2%float /\
  reviewCount Examples.p2 = of_Z 81.
Proof. repeat split; vm_compute; reflexivity. Qed.

(** *** Wish list *)

Lemma isWishlisted_iff (wishlist : option (list WishlistItem))
    (p : ProductWithCategory) :
  isWishlisted wishlist p = true <->
  exists items item, wishlist = Some items /\ In item items /\
                     product_id item = id p.
Proof.
  unfold isWishlisted. destruct wishlist as [items|].
  - rewrite existsb_exists. split.
    + intros (item & I & E). apply string_eqb_eq in E.
      exists items, item. tauto.
    + intros (items' & item & S & I & E). assert (items' = items) by congruence.
      subst items'. exists item. split; [exact I|]. apply string_eqb_eq, E.
  - split; [discriminate|]. intros (items & item & S & _). discriminate.
Qed.

(** C6. Without a session the toggle issues no mutation; with a session
    it issues the remove mutation for the product id when the product is
    in the wish list, and the add mutation for the product id otherwise. *)
Theorem toggle_wishlist_mutations (Session : Type) (session : option Session)
    (wishlist : option (list WishlistItem)) (p : ProductWithCategory) :
  let issued := filter is_mutation (handleToggleWishlist session wishlist p) in
  let wishlisted :=
    exists items item, wishlist = Some items /\ In item items /\
                       product_id item = id p in
  (session = None -> issued = []) /\
  (session <> None -> wishlisted -> issued = [RemoveMutate (id p)]) /\
  (session <> None -> ~ wishlisted -> issued = [AddMutate (id p)]).
Proof.
  simpl. unfold handleToggleWishlist. destruct session as [s|].
  - split; [discriminate|]. split.
    + intros _ W. apply isWishlisted_iff in W. rewrite W. reflexivity.
    + intros _ W. destruct (isWishlisted wishlist p) eqn:E; [|reflexivity].
      apply isWishlisted_iff in E. contradiction.
  - split; [reflexivity|]. split; intros N; contradiction.
Qed.

(** *** The add-to-cart button *)

(** C4. The button is disabled iff the mutation is pending or the product
    is in the cart (and a click on a disabled button does nothing, while a
    click on an enabled one issues the add-to-cart mutation for the
    product id); the label is the spinner while pending, else "Added"
    while the flag is set, else "In Cart" for a member, else
    "Add to Cart". *)
Theorem button_disabled_and_label (s : card) (p : ProductWithCategory) :
  (disabled s = true <-> isPending s = true \/ alreadyInCart s = true) /\
  (disabled s = true -> handleAddToCart s p = []) /\
  (disabled s = false ->
     filter is_mutation (handleAddToCart s p) = [AddToCartMutate (id p)]) /\
  (isPending s = true -> renderButtonContent s = Spinner) /\
  (isPending s = false -> justAdded s = true ->
     renderButtonContent s = Added) /\
  (isPending s = false -> justAdded s = false -> alreadyInCart s = true ->
     renderButtonContent s = InCart) /\
  (isPending s = false -> justAdded s = false -> alreadyInCart s = false ->
     renderButtonContent s = AddToCart).
Proof.
  unfold handleAddToCart, renderButtonContent, disabled.
  destruct (isPending s), (justAdded s), (alreadyInCart s); simpl;
    repeat split; intros; try reflexivity; try discriminate;
    intuition congruence.
Qed.

(** C3, counterexample.  A first success at time 0 and a second one at
    time 1000, the cart not reporting the product yet: two callbacks are
    pending at once, and at time 2000 the first one clears the flag, 1000
    ms after the last success. *)
Lemma second_success_reverts_early :
  let s1 := run initial_card
              [Click; MutationSuccess; Elapse 1000; Click; MutationSuccess] in
  let s2 := step s1 (Elapse 1000) in
  (now s1 = 1000%N /\ justAdded s1 = true /\
   timers s1 = [2000%N; 3000%N]) /\
  (now s2 = 2000%N /\ justAdded s2 = false /\ timers s2 = [3000%N] /\
   renderButtonContent s2 = AddToCart).
Proof. repeat split; vm_compute; reflexivity. Qed.

(** C3, as the code has it.  Every success sets the flag and schedules one
    more callback, due exactly 2000 ms later, and a scheduled callback
    stays pending until it is due.  When no callback is pending at the time
    of the success and no other success follows, the flag is set for
    exactly the next 2000 ms, and the button then shows "Added" unless a
    mutation is pending, and afterwards "In Cart" or "Add to Cart"
    according to the cart at that time. *)
Theorem added_window (s : card) (es : list event) :
  isPending s = true -> no_success es = true ->
  let s1 := step s MutationSuccess in
  let s2 := run s1 es in
  (justAdded s1 = true /\ timers s1 = timers s ++ [(now s + 2000)%N]) /\
  (forall due es', In due (timers s1) -> (now (run s1 es') < due)%N ->
     In due (timers (run s1 es'))) /\
  (timers s = [] ->
   now s2 = (now s + elapsed es)%N /\
   justAdded s2 = N.ltb (elapsed es) 2000 /\
   timers s2 = (if N.ltb (elapsed es) 2000 then [(now s + 2000)%N] else []) /\
   (isPending s2 = false ->
    renderButtonContent s2 =
      if N.ltb (elapsed es) 2000 then Added
      else if alreadyInCart s2 then InCart else AddToCart)).
Proof.
  intros P NS. simpl. rewrite P.
  split; [split; reflexivity|].
  split; [intros due es' I L; apply run_timers; assumption|].
  intros T.
  destruct (@run_window (now s) es (onSuccess s) NS (onSuccess_window s T))
    as [[HJ HT] HN]; [simpl; lia|].
  simpl now in HN.
  assert (E : N.ltb (now (run (onSuccess s) es)) (now s + 2000)
              = N.ltb (elapsed es) 2000).
  { rewrite HN. destruct (N.ltb_spec (elapsed es) 2000);
      destruct (N.ltb_spec (now s + elapsed es) (now s + 2000)); auto; lia. }
  rewrite E in HJ, HT.
  split; [exact HN|]. split; [exact HJ|]. split; [exact HT|].
  intros NP. unfold renderButtonContent. rewrite NP, HJ. reflexivity.
Qed.

Lemma added_window_witness :
  let s := Examples.pending_card in
  let es := [Elapse 500; CartChanged true; Elapse 1500] in
  let s1 := step s MutationSuccess in
  let s2 := run s1 es in
  (justAdded s1 = true /\ timers s1 = timers s ++ [(now s + 2000)%N]) /\
  (forall due es', In due (timers s1) -> (now (run s1 es') < due)%N ->
     In due (timers (run s1 es'))) /\
  (timers s = [] ->
   now s2 = (now s + elapsed es)%N /\
   justAdded s2 = N.ltb (elapsed es) 2000 /\
   timers s2 = (if N.ltb (elapsed es) 2000 then [(now s + 2000)%N] else []) /\
   (isPending s2 = false ->
    renderButtonContent s2 =
      if N.ltb (elapsed es) 2000 then Added
      else if alreadyInCart s2 then InCart else AddToCart)).
Proof.
  apply (@added_window Examples.pending_card
           [Elapse 500; CartChanged true; Elapse 1500]).
  - reflexivity.
  - reflexivity.
Defined.

(** Scenario 4: a click, the spinner, "Added" for 2 seconds, then
    "Add to Cart", or "In Cart" once the cart reports the product. *)
Example add_to_cart_scenario :
  map renderButtonContent
      [run initial_card [Click];
       run initial_card [Click; MutationSuccess];
       run initial_card [Click; MutationSuccess; Elapse 1999];
       run initial_card [Click; MutationSuccess; Elapse 2000];
       run initial_card [Click; MutationSuccess; CartChanged true; Elapse 2000]]
  = [Spinner; Added; Added; AddToCart; InCart].
Proof. reflexivity. Qed.

End CardProperties.

(* ================================================================= *)
(** ** Home.tsx: the listing beyond its render paths *)

Section HomeMore.

Import JS Home.
Local Open Scope Q_scope.

Lemma filter_idempotent (A : Type) (f : A -> bool) (xs : list A) :
  filter f (filter f xs) = filter f xs.
Proof.
  induction xs as [|x xs IH]; simpl; [reflexivity|].
  destruct (f x) eqn:E; simpl; [rewrite E, IH|]; auto.
Qed.

(** X1. Filtering is idempotent: the filter applied to its own result,
    with the same selection, gives that result; before the load it gives
    the empty list. *)
Theorem filteredProducts_idempotent
    (products : option (list ProductWithCategory)) (sel : js_string) :
  filteredProducts (Some (filteredProducts products sel)) sel
  = filteredProducts products sel /\
  filteredProducts None sel = [].
Proof.
  split; [|reflexivity].
  unfold filteredProducts. destruct products as [ps|].
  - destruct (string_eqb sel All); [reflexivity|]. apply filter_idempotent.
  - destruct (string_eqb sel All); reflexivity.
Qed.

Lemma in_map_filter (A B : Type) (g : A -> B) (f : A -> bool) (xs : list A)
    (b : B) :
  In b (map g (filter f xs)) -> In b (map g xs).
Proof.
  rewrite !in_map_iff. intros (x & E & I). apply filter_In in I.
  exists x. tauto.
Qed.

Lemma NoDup_map_filter (A B : Type) (g : A -> B) (f : A -> bool)
    (xs : list A) :
  NoDup (map g xs) -> NoDup (map g (filter f xs)).
Proof.
  induction xs as [|x xs IH]; simpl; intros H; [constructor|].
  inversion H as [|? ? Hx Hxs]; subst.
  destruct (f x); simpl; [|apply IH, Hxs].
  constructor; [|apply IH, Hxs].
  intros I. apply Hx. eapply in_map_filter, I.
Qed.

Lemma filteredProducts_incl (ps : list ProductWithCategory)
    (sel : js_string) (p : ProductWithCategory) :
  In p (filteredProducts (Some ps) sel) -> In p ps.
Proof.
  unfold filteredProducts. destruct (string_eqb sel All); [tauto|].
  intros I. apply filter_In in I. tauto.
Qed.

Lemma filteredProducts_keys (ps : list ProductWithCategory)
    (sel : js_string) :
  NoDup (map id ps) -> NoDup (map id (filteredProducts (Some ps) sel)).
Proof.
  unfold filteredProducts. destruct (string_eqb sel All); [tauto|].
  apply NoDup_map_filter.
Qed.

Lemma with_index_snd (A : Type) (xs : list A) :
  map snd (with_index xs) = seq 0 (length xs).
Proof.
  unfold with_index. generalize 0%nat.
  induction xs as [|x xs IH]; intros n; simpl; [reflexivity|].
  rewrite IH. reflexivity.
Qed.

Lemma with_index_length (A : Type) (xs : list A) :
  length (with_index xs) = length xs.
Proof. rewrite <- (with_index_fst xs) at 2. rewrite length_map. reflexivity. Qed.

(** X2. When the loaded products have distinct ids, the cards of the grid
    have distinct keys; every card shows a loaded product, and the index
    of a card is its position in the grid. *)
Theorem grid_keys_distinct (products : QueryResult (list ProductWithCategory))
    (cats : QueryResult (list Category)) (activeCategory : js_string)
    (ps : list ProductWithCategory)
    (cards : list (ProductWithCategory * nat)) :
  data products = Some ps -> NoDup (map id ps) ->
  grid (Home.Home products cats activeCategory) = Grid cards ->
  NoDup (map (fun c => id (fst c)) cards) /\
  (forall c, In c cards -> In (fst c) ps) /\
  map snd cards = seq 0 (length cards).
Proof.
  intros D K G. simpl in G. unfold renderProductGrid in G. rewrite D in G.
  destruct (isLoading products); [discriminate|].
  destruct (error products); [discriminate|].
  destruct (error cats); [discriminate|].
  destruct (filteredProducts (Some ps) activeCategory) as [|p f] eqn:F;
    [discriminate|].
  injection G as <-.
  split; [|split].
  - rewrite <- (map_map fst id), with_index_fst, <- F.
    apply filteredProducts_keys, K.
  - intros c I. apply (filteredProducts_incl ps activeCategory). rewrite F.
    rewrite <- (with_index_fst (p :: f)). apply in_map, I.
  - rewrite with_index_snd, with_index_length. reflexivity.
Qed.

Lemma grid_keys_distinct_witness :
  let products := {| data := Some Examples.catalog; isLoading := false;
                     error := None |} in
  let cats := {| data := Some Examples.categories_list; isLoading := false;
                 error := None |} in
  let cards := [(Examples.shoes1, 0%nat)] in
  NoDup (map (fun c => id (fst c)) cards) /\
  (forall c, In c cards -> In (fst c) Examples.catalog) /\
  map snd cards = seq 0 (length cards).
Proof.
  apply (@grid_keys_distinct
           {| data := Some Examples.catalog; isLoading := false;
              error := None |}
           {| data := Some Examples.categories_list; isLoading := false;
              error := None |}
           (lit "Shoes"%string) Examples.catalog).
  - reflexivity.
  - repeat constructor; simpl; intuition discriminate.
  - reflexivity.
Defined.

Lemma filteredProducts_In (ps : list ProductWithCategory)
    (sel : js_string) (p : ProductWithCategory) :
  In p (filteredProducts (Some ps) sel) <->
  In p ps /\ (sel = All \/ category_is sel p).
Proof.
  unfold filteredProducts, category_is.
  destruct (string_eqb sel All) eqn:E.
  - apply string_eqb_eq in E. tauto.
  - rewrite filter_In, strict_eq_opt_eq.
    assert (N : sel <> All).
    { intros ->. rewrite (proj2 (string_eqb_eq All All) eq_refl) in E.
      discriminate. }
    tauto.
Qed.

(** X3. A product without a category carries the label "Uncategorized",
    but it is listed under "All" only: no selection, "Uncategorized"
    included, brings it into the filtered list. *)
Theorem uncategorized_only_under_all (p : ProductWithCategory)
    (ps : list ProductWithCategory) (sel : js_string) :
  categories p = None ->
  ProductCard.categoryLabel p = lit "Uncategorized"%string /\
  (In p (filteredProducts (Some ps) sel) <-> In p ps /\ sel = All).
Proof.
  intros C. split.
  - unfold ProductCard.categoryLabel. rewrite C. reflexivity.
  - rewrite filteredProducts_In. unfold category_is. rewrite C. simpl.
    split; [intros [I [E|E]]; [tauto | discriminate] | tauto].
Qed.

Lemma uncategorized_only_under_all_witness :
  ProductCard.categoryLabel Examples.p_uncategorized
  = lit "Uncategorized"%string /\
  (In Examples.p_uncategorized
      (filteredProducts (Some [Examples.p_uncategorized; Examples.shoes1])
                        (lit "Uncategorized"%string)) <->
   In Examples.p_uncategorized [Examples.p_uncategorized; Examples.shoes1] /\
   lit "Uncategorized"%string = All).
Proof.
  apply (@uncategorized_only_under_all Examples.p_uncategorized
           [Examples.p_uncategorized; Examples.shoes1]
           (lit "Uncategorized"%string)).
  reflexivity.
Defined.



(** *** The cart counter of the header *)

Lemma total_nonneg (qs : list Z) :
  Forall (fun z => (0 <= z)%Z) qs -> (0 <= total qs)%Z.
Proof.
  induction 1 as [|z qs Hz _ IH]; simpl; [apply Z.le_refl | lia].
Qed.

Lemma fold_add_exact (items : list CartItem) :
  forall (qs : list Z) (a : Z),
    map quantity items = map of_Z qs ->
    Forall (fun z => (0 <= z)%Z) qs ->
    (0 <= a)%Z -> (a + total qs < 2 ^ prec)%Z ->
    fold_left (fun sum item => add sum (quantity item)) items (of_Z a)
    = of_Z (a + total qs).
Proof.
  induction items as [|x items IH]; intros [|z qs] a E F Ha Hs;
    try discriminate.
  - simpl. rewrite Z.add_0_r. reflexivity.
  - cbn [map] in E. injection E as Ex E. inversion F as [|? ? Hz F']; subst.
    pose proof (total_nonneg F') as T.
    change (total (z :: qs)) with (z + total qs)%Z in *. cbn [fold_left].
    rewrite Ex, add_int by lia.
    rewrite (IH qs (a + z)%Z E F') by lia.
    f_equal. ring.
Qed.

(** X5. When the quantities of the cart lines are nonnegative integers
    whose sum is below 2^53, the counter of the header is exactly their
    sum, and the badge is shown, with that sum, iff the sum is positive.
    Without cart data the counter is 0 and there is no badge. *)
Theorem cart_count_exact (items : list CartItem) (qs : list Z) :
  map quantity items = map of_Z qs ->
  Forall (fun z => (0 <= z)%Z) qs ->
  (total qs < 2 ^ 53)%Z ->
  cartItemCount (Some items) = of_Z (total qs) /\
  cart_badge (Some items)
  = (if Z.ltb 0 (total qs) then Some (of_Z (total qs)) else None) /\
  cartItemCount None = of_Z 0 /\ cart_badge None = None.
Proof.
  intros E F B.
  assert (C : cartItemCount (Some items) = of_Z (total qs)).
  { unfold cartItemCount.
    assert (B' : (0 + total qs < 2 ^ prec)%Z) by exact B.
    rewrite (@fold_add_exact items qs 0 E F (Z.le_refl 0) B').
    simpl Z.add. unfold or_else, truthy, of_Z, is_nan, is_zero. simpl orb.
    destruct (Qeq_bool (inject_Z (total qs)) 0) eqn:Z0; [|reflexivity].
    apply Qeq_bool_iff in Z0.
    assert (T0 : total qs = 0%Z).
    { unfold Qeq, inject_Z in Z0. cbn [Qnum Qden] in Z0. lia. }
    rewrite T0. reflexivity. }
  split; [exact C|]. split; [|split; reflexivity].
  unfold cart_badge. rewrite C. unfold of_Z.
  destruct (Z.ltb_spec 0 (total qs)) as [P|P].
  - rewrite (proj2 (gtb_Fin _ _)); [reflexivity|].
    rewrite <- Zlt_Qlt. exact P.
  - destruct (gtb _ _) eqn:G; [|reflexivity].
    apply gtb_Fin in G. rewrite <- Zlt_Qlt in G. lia.
Qed.

Lemma cart_count_exact_witness :
  cartItemCount (Some Examples.cart) = of_Z (total [2; 0; 3]%Z) /\
  cart_badge (Some Examples.cart)
  = (if Z.ltb 0 (total [2; 0; 3]%Z)
     then Some (of_Z (total [2; 0; 3]%Z)) else None) /\
  cartItemCount None = of_Z 0 /\ cart_badge None = None.
Proof.
  apply (@cart_count_exact Examples.cart [2; 0; 3]%Z).
  - reflexivity.
  - repeat constructor; discriminate.
  - reflexivity.
Defined.

(** *** The fetches and the messages of the grid *)

(** X6. Whatever error the backend reports, the grid shows one of the two
    fixed messages, never the text of the backend: the message for the
    products when their fetch failed, the one for the categories when only
    theirs failed; the error of the backend goes to the console.  When
    neither fetch failed the grid shows no message of failure. *)
Theorem load_failures_show_fixed_messages (E : Type)
    (rp : Response (list ProductWithCategory) E)
    (rc : Response (list Category) E) (activeCategory : js_string) :
  let view := Home.Home (settled (snd (fetchProducts rp)))
                        (settled (snd (fetchCategories rc)))
                        activeCategory in
  (forall e, response_error rp = Some e ->
     grid view = ErrorMessage products_failure /\
     fst (fetchProducts rp)
     = [ConsoleError (lit "Error fetching products:"%string) e]) /\
  (forall e, response_error rp = None -> response_error rc = Some e ->
     grid view = ErrorMessage categories_failure /\
     fst (fetchCategories rc)
     = [ConsoleError (lit "Error fetching categories:"%string) e]) /\
  (response_error rp = None -> response_error rc = None ->
     error_messages (grid view) = 0%nat /\
     fst (fetchProducts rp) = [] /\ fst (fetchCategories rc) = [] /\
     product_cards (grid view)
     = filteredProducts (response_data rp) activeCategory).
Proof.
  simpl. unfold fetchProducts, fetchCategories, renderProductGrid.
  split; [|split].
  - intros e Ep. rewrite Ep. simpl. split; reflexivity.
  - intros e Ep Ec. rewrite Ep, Ec. simpl. split; reflexivity.
  - intros Ep Ec. rewrite Ep, Ec. simpl.
    destruct (filteredProducts (response_data rp) activeCategory) as [|p f];
      simpl; repeat split; try reflexivity.
    apply (with_index_fst (p :: f)).
Qed.

End HomeMore.

(* ================================================================= *)
(** ** ProductCard.tsx: the card beyond its derived values *)

Section CardMore.

Import JS ProductCard.
Local Open Scope Q_scope.

(** *** Image *)

Lemma lit_seed_nonempty :
  lit "https://picsum.photos/seed/"%string <> [].
Proof. discriminate. Qed.

(** X7. The source of the image is never the empty String: it is the
    image URL of the product when that is a non-empty String, else the
    fallback image, which is also what a load error puts in its place;
    and the fallback image determines the id, so two products with
    different ids never share it. *)
Theorem image_source_and_fallback (p1 p2 : ProductWithCategory) :
  image_src p1 <> [] /\
  (forall u, image_url p1 = Some u -> u <> [] -> image_src p1 = u) /\
  (image_url p1 = None \/ image_url p1 = Some [] ->
   image_src p1 = fallbackImage p1) /\
  onImageError p1 (image_src p1) = fallbackImage p1 /\
  (fallbackImage p1 = fallbackImage p2 -> id p1 = id p2).
Proof.
  assert (F : fallbackImage p1 <> []).
  { unfold fallbackImage. intros E. apply app_eq_nil in E.
    destruct E as [E _]. exact (lit_seed_nonempty E). }
  unfold image_src, string_or_else.
  split; [|split; [|split; [|split]]].
  - destruct (image_url p1) as [[|c u]|]; simpl; try exact F. discriminate.
  - intros u E N. rewrite E. destruct u; [contradiction | reflexivity].
  - intros [E|E]; rewrite E; reflexivity.
  - reflexivity.
  - unfold fallbackImage. intros E. apply app_inv_head in E.
    apply app_inv_tail in E. exact E.
Qed.

(** *** The add-to-cart button: what every trace keeps *)

Lemma run_app (s : card) (es es' : list event) :
  run s (es ++ es') = run (run s es) es'.
Proof. unfold run. apply fold_left_app. Qed.

Lemma run_elapsed (es : list event) :
  forall s, now (run s es) = (now s + elapsed es)%N.
Proof.
  induction es as [|e es IH]; intros s.
  - simpl. lia.
  - unfold run in *. cbn [fold_left]. rewrite IH.
    destruct e; simpl; try lia.
    + destruct (disabled s); simpl; lia.
    + destruct (isPending s); simpl; lia.
Qed.

(** A step that is not a success keeps the invariant for the same [t]. *)
Lemma step_timers_inv (t : N) (s : card) (e : event) :
  is_success e = false -> timers_inv t s -> timers_inv t (step s e).
Proof.
  intros NS [F J]. destruct e as [| | |b|dt]; try discriminate.
  - unfold step. destruct (disabled s); split; assumption.
  - split; assumption.
  - split; assumption.
  - unfold step, advance, timers_inv. cbn [now justAdded timers]. split.
    + apply Forall_forall. intros due I. apply filter_In in I.
      destruct I as [I L]. rewrite Forall_forall in F.
      destruct (F due I) as [_ U].
      destruct (N.leb_spec due (now s + dt)); [discriminate|]. lia.
    + destruct (existsb _ (timers s)) eqn:X; [discriminate|].
      intros JA. specialize (J JA).
      assert (K : filter (fun due => negb (N.leb due (now s + dt))) (timers s)
                  = timers s).
      { apply forallb_filter_id. apply forallb_forall. intros due I.
        destruct (N.leb due (now s + dt)) eqn:L; [|reflexivity].
        assert (existsb (fun due => N.leb due (now s + dt)) (timers s) = true)
          by (apply existsb_exists; exists due; tauto).
        congruence. }
      rewrite K. exact J.
Qed.

Lemma timers_inv_later (t t' : N) (s : card) :
  (t <= t')%N -> timers_inv t s -> timers_inv t' s.
Proof.
  intros L [F J]. split; [|exact J].
  eapply Forall_impl; [|exact F]. simpl. intros due H. lia.
Qed.

Lemma step_timers_inv_now (s : card) (e : event) :
  timers_inv (now s) s -> timers_inv (now (step s e)) (step s e).
Proof.
  intros I. destruct (is_success e) eqn:S.
  - destruct e; try discriminate. simpl. destruct (isPending s); [|exact I].
    destruct I as [F J]. unfold onSuccess, timers_inv. cbn [now justAdded timers].
    split; [|intros _ E; apply app_eq_nil in E; destruct E; discriminate].
    apply Forall_app. split; [exact F|]. constructor; [lia | constructor].
  - apply timers_inv_later with (now s); [apply step_now|].
    apply step_timers_inv; assumption.
Qed.

Lemma run_timers_inv_now (es : list event) :
  forall s, timers_inv (now s) s -> timers_inv (now (run s es)) (run s es).
Proof.
  induction es as [|e es IH]; intros s I; [exact I|].
  unfold run in *. cbn [fold_left]. apply IH, step_timers_inv_now, I.
Qed.

Lemma run_timers_inv (t : N) (es : list event) :
  forall s, no_success es = true -> timers_inv t s ->
            timers_inv t (run s es).
Proof.
  induction es as [|e es IH]; intros s NS I; [exact I|].
  simpl in NS. apply andb_prop in NS. destruct NS as [Ne NS].
  apply negb_true_iff in Ne.
  unfold run in *. cbn [fold_left]. apply IH; [exact NS|].
  apply step_timers_inv; assumption.
Qed.

Lemma initial_timers_inv : timers_inv (now initial_card) initial_card.
Proof. split; [constructor | discriminate]. Qed.

(** X8. Whatever happened to a card before, once 2000 ms have passed
    without a success the flag is clear and no callback is pending: the
    button does not keep showing "Added".  At every moment each pending
    callback is due within the next 2000 ms, and the flag is set only
    while one is pending. *)
Theorem added_never_sticks (es es' : list event) :
  no_success es' = true -> (2000 <= elapsed es')%N ->
  let s0 := run initial_card es in
  let s := run s0 es' in
  timers_inv (now s0) s0 /\
  justAdded s = false /\ timers s = [] /\ renderButtonContent s <> Added.
Proof.
  intros NS L. simpl.
  pose proof (@run_timers_inv_now es initial_card initial_timers_inv) as I0.
  split; [exact I0|].
  pose proof (@run_timers_inv _ es' (run initial_card es) NS I0) as [F J].
  pose proof (run_elapsed es' (run initial_card es)) as N.
  set (s0 := run initial_card es) in *. set (s := run s0 es') in *.
  assert (T : timers s = []).
  { destruct (timers s) as [|due ds]; [reflexivity|].
    inversion F as [|? ? H _]; subst. lia. }
  assert (JA : justAdded s = false).
  { destruct (justAdded s); [|reflexivity]. destruct (J eq_refl T). }
  split; [exact JA|]. split; [exact T|].
  unfold renderButtonContent. rewrite JA.
  destruct (isPending s), (alreadyInCart s); discriminate.
Qed.

Lemma added_never_sticks_witness :
  let es := [Click; MutationSuccess; Elapse 1000; Click; MutationSuccess] in
  let es' := [Elapse 1500; Click; CartChanged true; Elapse 500] in
  let s0 := run initial_card es in
  let s := run s0 es' in
  timers_inv (now s0) s0 /\
  justAdded s = false /\ timers s = [] /\ renderButtonContent s <> Added.
Proof.
  apply (@added_never_sticks
           [Click; MutationSuccess; Elapse 1000; Click; MutationSuccess]
           [Elapse 1500; Click; CartChanged true; Elapse 500]).
  - reflexivity.
  - vm_compute. discriminate.
Defined.

End CardMore.

(* ================================================================= *)
(** ** ProductCard.tsx: rating, review count and discount on integers *)

Section CardIntegers.

Import JS ProductCard.
Local Open Scope Q_scope.

(** Multiplying small integers is exact. *)
Lemma mul_int (a b : Z) :
  (0 <= a * b < 2 ^ prec)%Z -> mul (of_Z a) (of_Z b) = of_Z (a * b).
Proof.
  intros H. unfold mul, of_Z.
  rewrite (@round_comp (inject_Z a * inject_Z b) (inject_Z (a * b)))
    by (rewrite inject_Z_mult; reflexivity).
  rewrite (@round_exact (inject_Z (a * b)) (a * b) 0).
  - rewrite Qred_inject_Z. reflexivity.
  - apply inject_Z_nonneg. lia.
  - apply dyadic_int. lia.
  - apply int_lt_max. lia.
Qed.

Lemma first_code_eq (s : js_string) :
  wf_string s = true ->
  or_else (charCodeAt s 0) (of_Z 1) = of_Z (first_code_Z s) /\
  (1 <= first_code_Z s <= 65535)%Z.
Proof.
  intros W. destruct s as [|c s'].
  - split; [reflexivity | simpl; lia].
  - simpl in W. apply andb_prop in W. destruct W as [W _].
    unfold code_unit_ok in W. apply N.ltb_lt in W.
    unfold charCodeAt, first_code_Z. cbn [nth_error].
    destruct (N.eqb_spec c 0) as [->|N0].
    + split; [reflexivity | lia].
    + split; [|lia].
      unfold or_else, truthy, of_Z, is_nan, is_zero. simpl orb.
      destruct (Qeq_bool (inject_Z (Z.of_N c)) 0) eqn:E; [|reflexivity].
      apply Qeq_bool_iff in E. unfold Qeq in E. simpl in E. lia.
Qed.

Lemma price_or_one_int (z : Z) :
  (0 <= z)%Z ->
  or_else (of_Z z) (of_Z 1) = of_Z (if Z.eqb z 0 then 1 else z).
Proof.
  intros H. destruct (Z.eqb_spec z 0) as [->|N0]; [reflexivity|].
  unfold or_else, truthy, of_Z, is_nan, is_zero. simpl orb.
  destruct (Qeq_bool (inject_Z z) 0) eqn:E; [|reflexivity].
  apply Qeq_bool_iff in E. unfold Qeq in E. simpl in E. lia.
Qed.

Lemma Math_floor_int (z : Z) : Math_floor (of_Z z) = of_Z z.
Proof. unfold Math_floor, of_Z. rewrite Qfloor_Z. reflexivity. Qed.

(** The derived values of a product with an integer price, computed on
    integers. *)
Lemma derived_on_integers (p : ProductWithCategory) (z : Z) :
  wf_string (id p) = true -> price p = of_Z z -> (0 <= z < 2 ^ 51)%Z ->
  let n := (first_code_Z (id p) + (if Z.eqb z 0 then 1 else z))%Z in
  seed p = of_Z n /\
  rating p = rating_of_digit (n mod 10) /\
  reviewCount p = of_Z (n * 3 mod 100 + 5).
Proof.
  intros W P Hz n.
  destruct (first_code_eq (id p) W) as [C Hc].
  assert (Hn : (1 <= n < 65536 + 2 ^ 51)%Z).
  { unfold n. destruct (Z.eqb_spec z 0); lia. }
  assert (S : seed p = of_Z n).
  { unfold seed. rewrite C, P, price_or_one_int by lia.
    apply add_int. unfold prec. fold n. lia. }
  split; [exact S|]. split.
  - unfold rating. rewrite S. change (of_Z n) with (Fin (inject_Z n)).
    rewrite (@rem_int (inject_Z n) n 10) by (lia || reflexivity).
    reflexivity.
  - unfold reviewCount. rewrite S.
    rewrite mul_int by (unfold prec; lia).
    change (of_Z (n * 3)) with (Fin (inject_Z (n * 3))).
    rewrite (@rem_int (inject_Z (n * 3)) (n * 3) 100) by (lia || reflexivity).
    rewrite Math_floor_int. apply add_int.
    pose proof (Z.mod_pos_bound (n * 3) 100 ltac:(lia)). unfold prec. lia.
Qed.

(** X10. For an integer price from 0 to 2^51 the rating and the review
    count are those of integer arithmetic: with [n] the first code unit of
    the id (1 for an empty id or a code unit 0) plus the price (1 for the
    price 0), the seed is [n], the rating is [4 + (n mod 10) / 10] and the
    review count is [(3 n) mod 100 + 5]. *)
Theorem rating_on_integers (p : ProductWithCategory) (z : Z) :
  wf_product p = true -> price p = of_Z z -> (0 <= z < 2 ^ 51)%Z ->
  let n := (first_code_Z (id p) + (if Z.eqb z 0 then 1 else z))%Z in
  seed p = of_Z n /\
  rating p = add (of_Z 4) (div (of_Z (n mod 10)) (of_Z 10)) /\
  reviewCount p = of_Z (n * 3 mod 100 + 5).
Proof.
  intros W P Hz. apply wf_product_id in W.
  exact (derived_on_integers p W P Hz).
Qed.

Lemma rating_on_integers_witness :
  let n := (first_code_Z (id Examples.p2) + (if Z.eqb 80 0 then 1 else 80))%Z in
  seed Examples.p2 = of_Z n /\
  rating Examples.p2 = add (of_Z 4) (div (of_Z (n mod 10)) (of_Z 10)) /\
  reviewCount Examples.p2 = of_Z (n * 3 mod 100 + 5).
Proof.
  apply (@rating_on_integers Examples.p2 80).
  - vm_compute. reflexivity.
  - reflexivity.
  - split; [discriminate | reflexivity].
Defined.

(** X11. Adding 100 to a positive integer price changes neither the
    rating nor the review count of a product. *)
Theorem rating_period_100 (p1 p2 : ProductWithCategory) (z : Z) :
  wf_product p1 = true -> wf_product p2 = true -> id p1 = id p2 ->
  price p1 = of_Z z -> price p2 = of_Z (z + 100) ->
  (1 <= z < 2 ^ 50)%Z ->
  rating p1 = rating p2 /\ reviewCount p1 = reviewCount p2.
Proof.
  intros W1 W2 I P1 P2 Hz.
  apply wf_product_id in W1. apply wf_product_id in W2.
  assert (B : (2 ^ 51 = 2 * 2 ^ 50)%Z) by reflexivity.
  destruct (derived_on_integers p1 W1 P1) as (_ & R1 & C1); [lia|].
  destruct (derived_on_integers p2 W2 P2) as (_ & R2 & C2); [lia|].
  rewrite R1, R2, C1, C2, I.
  destruct (Z.eqb_spec z 0) as [?|_]; [lia|].
  destruct (Z.eqb_spec (z + 100) 0) as [?|_]; [lia|].
  set (c := first_code_Z (id p2)).
  replace (c + (z + 100))%Z with (c + z + 10 * 10)%Z by ring.
  rewrite Z_mod_plus_full.
  replace ((c + z + 10 * 10) * 3)%Z with ((c + z) * 3 + 3 * 100)%Z by ring.
  rewrite Z_mod_plus_full. split; reflexivity.
Qed.

Lemma rating_period_100_witness :
  rating Examples.p2 = rating Examples.p_plus_100 /\
  reviewCount Examples.p2 = reviewCount Examples.p_plus_100.
Proof.
  apply (@rating_period_100 Examples.p2 Examples.p_plus_100 80).
  - vm_compute. reflexivity.
  - vm_compute. reflexivity.
  - reflexivity.
  - reflexivity.
  - reflexivity.
  - split; [discriminate | reflexivity].
Defined.

(** X12. A product given away (price 0) with a positive original price
    that is a finite binary64 value shows the badge "100% OFF". *)
Theorem free_product_full_discount (p : ProductWithCategory) (o : Q) :
  original_price p = Some (Fin o) -> price p = of_Z 0 ->
  is_double (Fin o) = true -> 0 < o ->
  discountPercentage p = of_Z 100 /\
  discount_badge p = Element (of_Z 100).
Proof.
  intros EO EP D Ho.
  assert (Ho0 : ~ o == 0) by (intro Z0; rewrite Z0 in Ho; discriminate).
  destruct (is_double_dyadic Ho D) as (m & k & HD & Hmax).
  assert (HT : to_boolean (hasDiscount p) = true).
  { apply hasDiscount_iff. exists (Fin o). split; [exact EO|]. split.
    - unfold is_zero. apply Qeq_bool_false, Ho0.
    - rewrite EP. apply gtb_Fin, Ho. }
  assert (P : discountPercentage p = of_Z 100).
  { unfold discountPercentage. rewrite HT, EO, EP. unfold non_null.
    unfold sub, neg, add, of_Z.
    rewrite (@round_comp (o + Qred (- inject_Z 0)) o)
      by (rewrite Qred_correct; simpl; ring).
    rewrite (round_exact (Qlt_le_weak _ _ Ho) HD Hmax).
    unfold div. rewrite (Qeq_bool_false Ho0).
    rewrite (@round_comp (Qred o / o) 1) by (rewrite Qred_correct; field; exact Ho0).
    vm_compute. reflexivity. }
  split; [exact P|].
  unfold discount_badge. rewrite P. apply jsx_and_element, HT.
Qed.

Lemma free_product_full_discount_witness :
  discountPercentage Examples.p_free = of_Z 100 /\
  discount_badge Examples.p_free = Element (of_Z 100).
Proof.
  apply (@free_product_full_discount Examples.p_free (inject_Z 100)).
  - reflexivity.
  - reflexivity.
  - vm_compute. reflexivity.
  - reflexivity.
Defined.

End CardIntegers.

(* ================================================================= *)
(** ** ProductCard.tsx: the price as text *)

Section PriceText.

Import JS JSFormat ProductCard.

Lemma digits_fuel_enough (f : nat) :
  forall (f' : nat) (n : N),
    (n < 10 ^ N.of_nat (S f))%N -> (n < 10 ^ N.of_nat (S f'))%N ->
    digits_fuel f n = digits_fuel f' n.
Proof.
  induction f as [|f IH]; intros f' n H H'.
  - change (10 ^ N.of_nat 1)%N with 10%N in H. simpl.
    rewrite N.mod_small by exact H. destruct f' as [|f']; simpl.
    + rewrite N.mod_small by exact H. reflexivity.
    + destruct (N.ltb_spec n 10); [reflexivity | lia].
  - cbn [digits_fuel]. destruct (N.ltb_spec n 10) as [L|G].
    + destruct f' as [|f']; simpl.
      * rewrite N.mod_small by exact L. reflexivity.
      * destruct (N.ltb_spec n 10); [reflexivity | lia].
    + destruct f' as [|f'].
      * change (10 ^ N.of_nat 1)%N with 10%N in H'. lia.
      * cbn [digits_fuel]. destruct (N.ltb_spec n 10); [lia|].
        f_equal. apply IH.
        -- apply N.Div0.div_lt_upper_bound.
           rewrite <- N.pow_succ_r'. rewrite <- Nat2N.inj_succ. exact H.
        -- apply N.Div0.div_lt_upper_bound.
           rewrite <- N.pow_succ_r'. rewrite <- Nat2N.inj_succ. exact H'.
Qed.

Lemma log2_fuel (n : N) : (n < 10 ^ N.of_nat (S (N.to_nat (N.log2 n))))%N.
Proof.
  rewrite Nat2N.inj_succ, N2Nat.id.
  destruct (N.eq_dec n 0) as [->|N0]; [reflexivity|].
  apply N.lt_le_trans with (2 ^ N.succ (N.log2 n))%N.
  - apply N.log2_spec. lia.
  - apply N.pow_le_mono_l. lia.
Qed.

Lemma decimal_small (n : N) : (n < 10)%N -> decimal n = [digit n].
Proof.
  intros H. unfold decimal.
  rewrite (@digits_fuel_enough _ 0 n (log2_fuel n) H).
  simpl. rewrite N.mod_small by exact H. reflexivity.
Qed.

Lemma decimal_step (n : N) :
  (10 <= n)%N -> decimal n = decimal (n / 10) ++ [digit (n mod 10)].
Proof.
  intros H. unfold decimal.
  rewrite (@digits_fuel_enough _ (S (N.to_nat (N.log2 (n / 10)))) n
             (log2_fuel n)).
  - cbn [digits_fuel]. destruct (N.ltb_spec n 10); [lia | reflexivity].
  - pose proof (log2_fuel (n / 10)) as L.
    rewrite Nat2N.inj_succ, N.pow_succ_r'.
    pose proof (N.Div0.div_mod n 10) as D.
    pose proof (N.mod_lt n 10 ltac:(lia)). lia.
Qed.

Lemma decimal_length (n : N) : (1 <= length (decimal n))%nat.
Proof.
  unfold decimal. generalize (N.to_nat (N.log2 n)). intros f.
  destruct f as [|f]; simpl; [lia|].
  destruct (N.ltb n 10); simpl; [lia|]. rewrite length_app. simpl. lia.
Qed.

Lemma digits_value_app (s : js_string) (c : N) :
  digits_value (s ++ [c]) = (10 * digits_value s + (c - 48))%N.
Proof. unfold digits_value. rewrite fold_left_app. reflexivity. Qed.

(** Reading the decimal digits of a number gives the number back. *)
Lemma digits_value_decimal (n : N) : digits_value (decimal n) = n.
Proof.
  induction n as [n IH] using (well_founded_induction N.lt_wf_0).
  destruct (N.ltb_spec n 10) as [L|G].
  - rewrite (decimal_small L). unfold digits_value, digit. cbn [fold_left]. lia.
  - rewrite (decimal_step G), digits_value_app, IH.
    + unfold digit. pose proof (N.Div0.div_mod n 10) as D.
      set (a := (n / 10)%N) in *. set (b := (n mod 10)%N) in *.
      clearbody a b. lia.
    + apply N.div_lt; lia.
Qed.

Lemma firstn_skipn_last2 (A : Type) (a : list A) (x y : A) :
  let m := a ++ [x; y] in
  firstn (length m - 2) m = a /\ skipn (length m - 2) m = [x; y].
Proof.
  simpl. rewrite length_app. simpl.
  replace (length a + 2 - 2)%nat with (length a + 0)%nat by lia.
  rewrite firstn_app_2, skipn_app. simpl.
  rewrite app_nil_r. replace (length a + 0 - length a)%nat with 0%nat by lia.
  rewrite Nat.add_0_r, skipn_all. split; reflexivity.
Qed.

(** The digits of [toFixed(2)]: the digits of the whole part, a point and
    the two digits of the hundredths. *)
Lemma fixed2_shape (y : Q) :
  let c := hundredths y in
  fixed2 y = decimal (c / 100) ++ [46%N]
             ++ [digit (c / 10 mod 10); digit (c mod 10)].
Proof.
  intros c. unfold fixed2. fold c.
  assert (M : pad_zeros 3 (decimal c)
              = decimal (c / 100) ++ [digit (c / 10 mod 10); digit (c mod 10)]).
  { destruct (N.ltb_spec c 10) as [L1|G1].
    - rewrite (decimal_small L1).
      rewrite N.div_small, (N.div_small c 10), N.mod_small, (N.mod_small c 10)
        by lia.
      reflexivity.
    - rewrite (decimal_step G1).
      assert (E : (c / 10 / 10 = c / 100)%N) by (rewrite N.Div0.div_div; reflexivity).
      destruct (N.ltb_spec (c / 10) 10) as [L2|G2].
      + rewrite (decimal_small L2).
        rewrite <- E, (N.div_small (c / 10)), (N.mod_small (c / 10)) by lia.
        reflexivity.
      + rewrite (decimal_step G2), E.
        pose proof (decimal_length (c / 100)) as A. revert A.
        generalize (decimal (c / 100)) (digit (c / 10 mod 10)) (digit (c mod 10)).
        intros a d1 d0 A. unfold pad_zeros.
        rewrite !length_app. simpl length.
        replace (3 - (length a + 1 + 1))%nat with 0%nat by (clear - A; lia).
        simpl repeat. rewrite <- app_assoc. reflexivity. }
  rewrite M.
  destruct (firstn_skipn_last2 (decimal (c / 100))
              (digit (c / 10 mod 10)) (digit (c mod 10))) as [F S].
  cbv zeta in F, S. rewrite F, S. reflexivity.
Qed.

Local Open Scope Q_scope.

Lemma hundredths_nearest (y : Q) :
  0 <= y ->
  inject_Z (Z.of_N (hundredths y)) <= y * inject_Z 100 + (1 # 2) /\
  y * inject_Z 100 + (1 # 2) < inject_Z (Z.of_N (hundredths y)) + 1.
Proof.
  intros H. unfold hundredths.
  set (v := y * inject_Z 100 + (1 # 2)).
  assert (V : 0 <= v).
  { unfold v. setoid_replace 0 with (0 + 0) by reflexivity.
    apply Qplus_le_compat; [|discriminate].
    apply Qmult_le_0_compat; [exact H | discriminate]. }
  assert (F : (0 <= Qfloor v)%Z).
  { change 0%Z with (Qfloor 0). apply Qfloor_resp_le, V. }
  rewrite Z2N.id by exact F. split; [apply Qfloor_le|].
  pose proof (Qlt_floor v) as L. rewrite inject_Z_plus in L. exact L.
Qed.

(** X13. A price that is finite and below 10^21 in magnitude is shown as
    "$", a minus sign when it is negative, the decimal digits of the whole
    part, a point and exactly two digits: the digits of the number of
    hundredths nearest to the magnitude of the price (the larger at equal
    distance); read back, the digits of the whole part give that number
    of hundredths divided by 100. *)
Theorem price_text_hundredths (p : ProductWithCategory) (q : Q) :
  price p = Fin q -> Qabs q < inject_Z (10 ^ 21) ->
  let c := hundredths (Qabs q) in
  price_text p
  = lit "$"%string
    ++ (if Qlt_le_dec q 0 then lit "-"%string else [])
    ++ decimal (c / 100) ++ lit "."%string
    ++ [digit (c / 10 mod 10); digit (c mod 10)] /\
  digits_value (decimal (c / 100)) = (c / 100)%N /\
  inject_Z (Z.of_N c) <= Qabs q * inject_Z 100 + (1 # 2) /\
  Qabs q * inject_Z 100 + (1 # 2) < inject_Z (Z.of_N c) + 1.
Proof.
  intros P B c. split; [|split; [apply digits_value_decimal|]].
  - unfold price_text, toFixed2. rewrite P. f_equal.
    assert (S : match Qcompare q 0 with Lt => lit "-"%string | _ => [] end
                = if Qlt_le_dec q 0 then lit "-"%string else []).
    { destruct (Qlt_le_dec q 0) as [L|G];
        destruct (Qcompare_spec q 0) as [E'|L'|G']; try reflexivity; exfalso.
      - rewrite E' in L. discriminate.
      - apply (Qlt_irrefl q). eapply Qlt_trans; eauto.
      - apply (Qlt_irrefl q). eapply Qlt_le_trans; eauto. }
    rewrite S. f_equal.
    destruct (Qle_bool _ _) eqn:E.
    + apply Qle_bool_iff in E. exfalso.
      apply (Qlt_irrefl (Qabs q)). eapply Qlt_le_trans; eauto.
    + apply fixed2_shape.
  - apply hundredths_nearest, Qabs_nonneg.
Qed.

Lemma price_text_hundredths_witness :
  let c := hundredths (Qabs (85 # 2)) in
  price_text Examples.p_42_50
  = lit "$"%string
    ++ (if Qlt_le_dec (85 # 2) 0 then lit "-"%string else [])
    ++ decimal (c / 100) ++ lit "."%string
    ++ [digit (c / 10 mod 10); digit (c mod 10)] /\
  digits_value (decimal (c / 100)) = (c / 100)%N /\
  inject_Z (Z.of_N c) <= Qabs (85 # 2) * inject_Z 100 + (1 # 2) /\
  Qabs (85 # 2) * inject_Z 100 + (1 # 2) < inject_Z (Z.of_N c) + 1.
Proof.
  apply (@price_text_hundredths Examples.p_42_50 (85 # 2)).
  - reflexivity.
  - reflexivity.
Defined.

(** The texts of some prices: 1.005 is the binary64 value
    [4525598075550761 * 2^-52], below 1.005, and shows as 1.00. *)
Example price_texts :
  price_text Examples.p_42_50 = lit "$42.50"%string /\
  toFixed2 (Fin (4525598075550761 # 4503599627370496)) = lit "1.00"%string /\
  toFixed2 (Fin (1 # 8)) = lit "0.13"%string /\
  toFixed2 (Fin (- (1 # 1000))) = lit "-0.00"%string /\
  toFixed2 (of_Z (10 ^ 21)) = lit "1e+21"%string /\
  toFixed2 (Fin (two ^ 1023)) = lit "8.98846567431158e+307"%string /\
  struck_price_text Examples.p2 = Element (lit "$100.00"%string).
Proof. repeat split; vm_compute; reflexivity. Qed.

End PriceText.
